(** * automesh: peer discovery and link liveness over ESP-NOW

    A shallow embedding of [micropython/esp32/automesh.py].  The [Mesh]
    object, its [peers] dictionary and the ESP-NOW peer list it drives are
    state threaded through a small state-and-exception monad; every
    coroutine of the class is one definition with the name it has in the
    source. *)

From stdpp Require Import gmap strings list fin_maps.
From Stdlib Require Import ZArith Lia.

Local Open Scope string_scope.
Local Open Scope Z_scope.
Local Open Scope list_scope.

(** ** Data *)

(** Link-layer addresses and payloads are Python byte strings. *)
Abbreviation mac := string.

(** [BROADCAST_ADDR = b'\xff\xff\xff\xff\xff\xff'] *)
Definition BROADCAST_ADDR : mac :=
  let ff := Ascii.ascii_of_N 255 in
  String ff (String ff (String ff (String ff (String ff (String ff EmptyString))))).

(** [class Peer]: the constructor stores the address, a zero failure
    counter and [datetime.utcnow()]. *)
Record Peer := mkPeer {
  mac_address : mac;
  failure_count : Z;
  last_seen : Z
}.

Definition Peer_init (mac_address : mac) (utcnow : Z) : Peer :=
  mkPeer mac_address 0 utcnow.

Definition with_failure_count (p : Peer) (c : Z) : Peer :=
  mkPeer (mac_address p) c (last_seen p).

(** The ESP-NOW object behind [self.mesh] (class [aioespnow.AIOESPNow]).
    It lives outside the repository; the model keeps what the source relies
    on: the ordered list of registered peers and the number of peers the
    link layer accepts. *)
Record ESPNow := mkESPNow {
  active : bool;
  capacity : nat;
  registered : list mac
}.

(** [class Mesh] *)
Record Mesh := mkMesh {
  is_in_mesh : bool;
  peers : gmap mac Peer;
  mesh : ESPNow
}.

(** Exceptions the program can meet; all derive from [Exception]. *)
Inductive errno :=
| ESP_ERR_ESPNOW_NOT_FOUND
| ESP_ERR_ESPNOW_EXIST
| ESP_ERR_ESPNOW_FULL.

Inductive exn :=
| OSError (code : errno)
| KeyError (key : mac)
| TypeError
| AttributeError
| UnicodeError.

(** What the program prints. *)
Inductive message :=
| MsgFrame (text : string)
| MsgAddingPeer (a : mac)
| MsgFailedToAdd (e : exn)
| MsgFailedToSend (a : mac) (count : Z)
| MsgRemovingPeer (a : mac)
| MsgFailedToRemove (e : exn)
| MsgBeaconExiting
| MsgNotifierStarted
| MsgNotifyingPeer (a : mac).

(** Observable events, in the order they happen. *)
Inductive event :=
| EvSend (to : mac) (data : string) (ok : bool)
| EvSleep (secs : Z)
| EvPrint (m : message).

(** The world a coroutine runs in: the [Mesh] object, the clock (advanced
    by [asyncio.sleep]), the answers the radio will give to the coming
    [send] calls, how many were consumed, and the events so far. *)
Record world := mkWorld {
  self : Mesh;
  clock : Z;
  radio : nat -> bool;
  sent : nat;
  trace : list event
}.

(** ** Coroutine results *)

(** A coroutine returns, raises, or yields to the scheduler without
    having arranged to be resumed ([Stall]).  [Fuel] marks a loop cut off
    by the bound of the model, never a behaviour of the program. *)
Inductive outcome (A : Type) :=
| Done (a : A)
| Raise (e : exn)
| Stall
| Fuel.
Arguments Done {A} a.
Arguments Raise {A} e.
Arguments Stall {A}.
Arguments Fuel {A}.

Definition M (A : Type) : Type := world -> outcome A * world.

Definition ret {A} (a : A) : M A := fun w => (Done a, w).

Definition bind {A B} (m : M A) (k : A -> M B) : M B :=
  fun w =>
    match m w with
    | (Done a, w') => k a w'
    | (Raise e, w') => (Raise e, w')
    | (Stall, w') => (Stall, w')
    | (Fuel, w') => (Fuel, w')
    end.

Declare Scope coro_scope.
Delimit Scope coro_scope with coro.
Notation "x <- m ;; k" := (bind m (fun x => k))
  (at level 100, m at next level, right associativity) : coro_scope.
Notation "m ;;; k" := (bind m (fun _ => k))
  (at level 100, right associativity) : coro_scope.
Local Open Scope coro_scope.

(** [try: body except Exception as e: handler] *)
Definition try_except {A} (body : M A) (handler : exn -> M A) : M A :=
  fun w =>
    match body w with
    | (Raise e, w') => handler e w'
    | r => r
    end.

Definition raise {A} (e : exn) : M A := fun w => (Raise e, w).

Definition emit (e : event) : M unit :=
  fun w => (Done tt, mkWorld (self w) (clock w) (radio w) (sent w) (trace w ++ [e])).

Definition print (m : message) : M unit := emit (EvPrint m).

Definition get_self : M Mesh := fun w => (Done (self w), w).

Definition put_self (s : Mesh) : M unit :=
  fun w => (Done tt, mkWorld s (clock w) (radio w) (sent w) (trace w)).

(** [datetime.utcnow()] *)
Definition utcnow : M Z := fun w => (Done (clock w), w).

(** [await asyncio.sleep(secs)] *)
Definition sleep (secs : Z) : M unit :=
  fun w => (Done tt, mkWorld (self w) (clock w + secs) (radio w) (sent w)
                             (trace w ++ [EvSleep secs])).

(** ** The transport *)

(** Values the plain (non-coroutine) ESP-NOW methods hand back.  Of the
    methods of [self.mesh] only [asend] and the frame iterator are
    coroutines; [active], [add_peer], [get_peer], [del_peer] and
    [get_peers] are plain methods, as the calls without [await] on lines
    48, 75, 121, 142 and 150 of the source have them.  Lines 117 and 132
    put [await] in front of [get_peer] and [del_peer] all the same. *)
Inductive pyval :=
| PyNone
| PyTuple (a : mac).

(** [await v] on something that is not a coroutine.  MicroPython compiles
    [await e] as [yield from e]: [None] is not iterable, which raises
    [TypeError]; a tuple is iterated and its first item is yielded to the
    scheduler, which has no reason to resume the task. *)
Definition await_value (v : pyval) : M unit :=
  match v with
  | PyNone => raise TypeError
  | PyTuple _ => fun w => (Stall, w)
  end.

Definition set_registered (l : list mac) : M unit :=
  s <- get_self ;;
  put_self (mkMesh (is_in_mesh s) (peers s)
                   (mkESPNow (active (mesh s)) (capacity (mesh s)) l)).

(** [self.mesh.active(True)] *)
Definition mesh_active (b : bool) : M unit :=
  s <- get_self ;;
  put_self (mkMesh (is_in_mesh s) (peers s)
                   (mkESPNow b (capacity (mesh s)) (registered (mesh s)))).

(** [self.mesh.get_peer(a)]: the peer's record, [OSError] when [a] is not
    registered. *)
Definition mesh_get_peer (a : mac) : M pyval :=
  s <- get_self ;;
  if bool_decide (a ∈ registered (mesh s)) then ret (PyTuple a)
  else raise (OSError ESP_ERR_ESPNOW_NOT_FOUND).

(** [self.mesh.add_peer(a)]: [OSError] when [a] is registered already or
    the peer list is full. *)
Definition mesh_add_peer (a : mac) : M pyval :=
  s <- get_self ;;
  if bool_decide (a ∈ registered (mesh s)) then raise (OSError ESP_ERR_ESPNOW_EXIST)
  else if (capacity (mesh s) <=? length (registered (mesh s)))%nat
       then raise (OSError ESP_ERR_ESPNOW_FULL)
  else (set_registered (registered (mesh s) ++ [a]) ;;; ret PyNone).

(** [self.mesh.del_peer(a)]: [OSError] when [a] is not registered. *)
Definition mesh_del_peer (a : mac) : M pyval :=
  s <- get_self ;;
  if bool_decide (a ∈ registered (mesh s))
  then (set_registered (filter (fun b => b ≠ a) (registered (mesh s))) ;;; ret PyNone)
  else raise (OSError ESP_ERR_ESPNOW_NOT_FOUND).

(** [self.mesh.get_peers()]: a tuple, a copy of the peer list. *)
Definition mesh_get_peers : M (list mac) :=
  s <- get_self ;; ret (registered (mesh s)).

(** [await self.mesh.asend(a, data)]: the radio answers [True] or [False]. *)
Definition mesh_asend (a : mac) (data : string) : M bool :=
  fun w =>
    let ok := radio w (sent w) in
    (Done ok, mkWorld (self w) (clock w) (radio w) (S (sent w))
                      (trace w ++ [EvSend a data ok])).

(** [message.decode()]: [UnicodeError] unless the payload is well-formed
    UTF-8 in the sense of MicroPython's check (lead bytes announce how
    many continuation bytes follow). *)
Fixpoint utf8_check (need : N) (s : string) : bool :=
  match s with
  | EmptyString => N.eqb need 0
  | String ch rest =>
      let c := Ascii.N_of_ascii ch in
      if negb (N.eqb need 0) then
        if N.eqb (N.land c 192) 128 then utf8_check (need - 1) rest else false
      else if (192 <=? c)%N then
        if (248 <=? c)%N then false
        else utf8_check (N.land (N.shiftr 229 (N.land (N.shiftr c 3) 6)) 3) rest
      else if (128 <=? c)%N then false
      else utf8_check 0 rest
  end.

Definition decode (payload : string) : M string :=
  if utf8_check 0 payload then ret payload else raise UnicodeError.

(** ** The [peers] dictionary *)

Definition set_peers (d : gmap mac Peer) : M unit :=
  s <- get_self ;; put_self (mkMesh (is_in_mesh s) d (mesh s)).

Definition set_is_in_mesh (b : bool) : M unit :=
  s <- get_self ;; put_self (mkMesh b (peers s) (mesh s)).

(** [self.peers[a]] *)
Definition peers_getitem (a : mac) : M Peer :=
  s <- get_self ;;
  match peers s !! a with
  | Some p => ret p
  | None => raise (KeyError a)
  end.

(** [self.peers[a] = p] *)
Definition peers_setitem (a : mac) (p : Peer) : M unit :=
  s <- get_self ;; set_peers (<[a := p]> (peers s)).

(** [del self.peers[a]] *)
Definition peers_delitem (a : mac) : M unit :=
  s <- get_self ;;
  match peers s !! a with
  | Some _ => set_peers (delete a (peers s))
  | None => raise (KeyError a)
  end.

(** [self.peers[a].failure_count = c]: the [Peer] object is reachable
    through the dictionary only, so updating it in place is updating the
    entry. *)
Definition set_failure_count (a : mac) (c : Z) : M unit :=
  p <- peers_getitem a ;; peers_setitem a (with_failure_count p c).

(** ** [class Mesh] *)

(** [Mesh.__init__]: not in a mesh, no peers, a fresh ESP-NOW object. *)
Definition Mesh_init (cap : nat) : Mesh :=
  mkMesh false ∅ (mkESPNow false cap []).

Definition boot (cap : nat) (air : nat -> bool) : world :=
  mkWorld (Mesh_init cap) 0 air 0 [].

(** [Mesh.broadcast] *)
Definition broadcast (data : string) : M unit :=
  _ <- mesh_asend BROADCAST_ADDR data ;; ret tt.

(** [Mesh.add_peer] *)
Definition add_peer (peer_address : mac) : M unit :=
  try_except
    (v <- mesh_get_peer peer_address ;; await_value v)
    (fun _ =>
       try_except
         (_ <- mesh_add_peer peer_address ;;
          t <- utcnow ;;
          peers_setitem peer_address (Peer_init peer_address t))
         (fun e => print (MsgFailedToAdd e))).

(** [Mesh.remove_peer]: [del_peer], then the [await] on what it handed
    back, then the [del] on the dictionary, all three under one handler. *)
Definition remove_peer (peer_address : mac) : M unit :=
  try_except
    (v <- mesh_del_peer peer_address ;;
     await_value v ;;;
     peers_delitem peer_address)
    (fun e => print (MsgFailedToRemove e)).

(** [Mesh.send_message]: the [while True] loop, one iteration per unit of
    [fuel]. *)
Fixpoint send_message_loop (fuel : nat) (message : string) (peer_address : mac)
  : M unit :=
  match fuel with
  | O => fun w => (Fuel, w)
  | S fuel' =>
      ok <- mesh_asend peer_address message ;;
      if ok then set_failure_count peer_address 0
      else
        p <- peers_getitem peer_address ;;
        peers_setitem peer_address (with_failure_count p (failure_count p + 1)) ;;;
        p1 <- peers_getitem peer_address ;;
        print (MsgFailedToSend peer_address (failure_count p1)) ;;;
        p2 <- peers_getitem peer_address ;;
        if (5 <=? failure_count p2)%Z then
          print (MsgRemovingPeer peer_address) ;;;
          remove_peer peer_address
        else
          sleep 1 ;;;
          send_message_loop fuel' message peer_address
  end.

(** Iterations the loop can need from a given state: it leaves at the
    first failure that brings the counter to 5. *)
Definition send_message_bound (s : Mesh) (peer_address : mac) : nat :=
  match peers s !! peer_address with
  | Some p => S (Z.to_nat (4 - failure_count p))
  | None => 1
  end.

Definition send_message (message : string) (peer_address : mac) : M unit :=
  fun w => send_message_loop (send_message_bound (self w) peer_address)
                             message peer_address w.

(** [for peer in peers: ...] of [notify_task]. *)
Fixpoint notify_each (snapshot : list mac) : M unit :=
  match snapshot with
  | [] => ret tt
  | a :: rest =>
      print (MsgNotifyingPeer a) ;;;
      send_message "Hi" a ;;;
      notify_each rest
  end.

(** One turn of the [while True] loop of [Mesh.notify_task]. *)
Definition notify_cycle : M unit :=
  snapshot <- mesh_get_peers ;;
  notify_each snapshot ;;;
  sleep 5.

(** [Mesh.notify_task], cut after [cycles] turns. *)
Fixpoint notify_loop (cycles : nat) : M unit :=
  match cycles with
  | O => fun w => (Fuel, w)
  | S n => notify_cycle ;;; notify_loop n
  end.

Definition notify_task (cycles : nat) : M unit :=
  print MsgNotifierStarted ;;; notify_loop cycles.

(** One turn of the [async for] loop of [Mesh.receiver_task]. *)
Definition receiver_body (sender_mac : mac) (payload : string) : M unit :=
  text <- decode payload ;;
  print (MsgFrame text) ;;;
  try_except
    (_ <- mesh_get_peer sender_mac ;; ret tt)
    (fun _ =>
       print (MsgAddingPeer sender_mac) ;;;
       add_peer sender_mac ;;;
       set_is_in_mesh true).

(** [Mesh.receiver_task] over the frames that arrive. *)
Fixpoint receiver_task (frames : list (mac * string)) : M unit :=
  match frames with
  | [] => ret tt
  | (sender_mac, payload) :: rest =>
      receiver_body sender_mac payload ;;; receiver_task rest
  end.

(** The part of [Mesh.start] that runs before the tasks are created. *)
Definition start_radio : M unit :=
  mesh_active true ;;;
  _ <- mesh_add_peer BROADCAST_ADDR ;;
  ret tt.

(** [Mesh.remove_all_peers]: the items of [get_peers()] are tuples, so
    [peer.mac] raises at the first one. *)
Definition remove_all_peers : M unit :=
  snapshot <- mesh_get_peers ;;
  match snapshot with
  | [] => ret tt
  | _ :: _ => raise AttributeError
  end.

(** ** The tasks side by side *)

(** Where [Mesh.beacon_task] is suspended: at the loop test (just created,
    or woken from its sleep), inside [asend], inside [asyncio.sleep] until
    [wake], or returned. *)
Inductive beacon_pc :=
| BeaconReady
| BeaconInSend
| BeaconAsleep (wake : Z)
| BeaconExited.

(** [while not self.is_in_mesh: await self.broadcast("--hello--")], up to
    the suspension inside [asend]: the task has entered the call and
    waits for the radio; nothing is sent yet, and the call has no result
    before the task is resumed. *)
Definition beacon_test : M beacon_pc :=
  s <- get_self ;;
  if negb (is_in_mesh s) then ret BeaconInSend
  else
    print MsgBeaconExiting ;;; ret BeaconExited.

(** The scheduler gives [beacon_task] the processor: the coroutine runs
    from where it was suspended to its next suspension.  Resumed inside
    [asend] it hands the frame to the radio, gets the answer and goes on
    to [asyncio.sleep(1)]; the flag is not read between the loop test
    and the send.  A sleeping task is resumed only once its time has
    come. *)
Definition beacon_resume (pc : beacon_pc) : M beacon_pc :=
  match pc with
  | BeaconReady => beacon_test
  | BeaconInSend =>
      broadcast "--hello--" ;;;
      t <- utcnow ;; emit (EvSleep 1) ;;; ret (BeaconAsleep (t + 1))
  | BeaconAsleep wake =>
      t <- utcnow ;;
      if (wake <=? t)%Z then beacon_test else ret (BeaconAsleep wake)
  | BeaconExited => ret BeaconExited
  end.

Record system := mkSystem {
  sys_world : world;
  sys_beacon : beacon_pc
}.

(** What can happen next on a node. *)
Inductive action :=
| Beacon                                  (* beacon_task is resumed *)
| Frame (sender_mac : mac) (payload : string)
                                          (* receiver_task gets a frame *)
| Notify                                  (* one cycle of notify_task *)
| Probe (a : mac)                         (* send_message("Hi", a) *)
| AddPeer (a : mac)                       (* add_peer(a) *)
| Evict (a : mac)                         (* remove_peer(a) *)
| EvictAll                                (* remove_all_peers() *)
| Elapse (d : nat).                       (* time passes *)

Definition elapse (d : nat) : M unit :=
  fun w => (Done tt, mkWorld (self w) (clock w + Z.of_nat d) (radio w) (sent w)
                             (trace w)).

(** Side effects of a coroutine stay when it raises. *)
Definition exec {A} (m : M A) (s : system) : system :=
  mkSystem (m (sys_world s)).2 (sys_beacon s).

Definition step (s : system) (a : action) : system :=
  match a with
  | Beacon =>
      match beacon_resume (sys_beacon s) (sys_world s) with
      | (Done pc, w') => mkSystem w' pc
      | (_, w') => mkSystem w' BeaconExited
      end
  | Frame sender_mac payload => exec (receiver_body sender_mac payload) s
  | Notify => exec notify_cycle s
  | Probe a => exec (send_message "Hi" a) s
  | AddPeer a => exec (add_peer a) s
  | Evict a => exec (remove_peer a) s
  | EvictAll => exec remove_all_peers s
  | Elapse d => exec (elapse d) s
  end.

Definition run_schedule (s : system) (sch : list action) : system :=
  fold_left step sch s.

(** A node after [Mesh()] and the first lines of [start()]. *)
Definition started (cap : nat) (air : nat -> bool) : system :=
  mkSystem (start_radio (boot cap air)).2 BeaconReady.

(** ** Vocabulary of the properties *)

(** World after a failed attempt that is followed by a retry. *)
Definition retry_world (a : mac) (m : string) (p : Peer) (w : world) : world :=
  mkWorld
    (mkMesh (is_in_mesh (self w))
            (<[a := with_failure_count p (failure_count p + 1)]> (peers (self w)))
            (mesh (self w)))
    (clock w + 1) (radio w) (S (sent w))
    (trace w ++ [EvSend a m false;
                 EvPrint (MsgFailedToSend a (failure_count p + 1));
                 EvSleep 1]).

(** World in which [remove_peer] is entered after the failure that
    brought the counter to the threshold. *)
Definition threshold_world (a : mac) (m : string) (p : Peer) (w : world) : world :=
  mkWorld
    (mkMesh (is_in_mesh (self w))
            (<[a := with_failure_count p (failure_count p + 1)]> (peers (self w)))
            (mesh (self w)))
    (clock w) (radio w) (S (sent w))
    (trace w ++ [EvSend a m false;
                 EvPrint (MsgFailedToSend a (failure_count p + 1));
                 EvPrint (MsgRemovingPeer a)]).

(** Number of [send] calls addressed to [a]. *)
Fixpoint attempts (a : mac) (evs : list event) : nat :=
  match evs with
  | [] => 0
  | EvSend b _ _ :: rest =>
      ((if bool_decide (b = a) then 1 else 0) + attempts a rest)%nat
  | _ :: rest => attempts a rest
  end.

Definition since_list (since : option Z) : list Z :=
  match since with
  | Some t => [t]
  | None => []
  end.

(** Time slept between each [send] call and the next one; [since] is the
    time slept since the last call, if there was one. *)
Fixpoint pauses (since : option Z) (evs : list event) : list Z :=
  match evs with
  | [] => []
  | EvSend _ _ _ :: rest => since_list since ++ pauses (Some 0) rest
  | EvSleep d :: rest => pauses (option_map (fun t => t + d) since) rest
  | EvPrint _ :: rest => pauses since rest
  end.

(** Whether some [send] call was answered [True]. *)
Definition delivered (evs : list event) : bool :=
  existsb (fun e => match e with EvSend _ _ ok => ok | _ => false end) evs.

(** [keeps R m]: whatever [m] does, and however it ends, the world it
    leaves is related by [R] to the one it found. *)
Definition keeps (R : relation world) {A} (m : M A) : Prop :=
  forall w, R w (m w).2.

(** The flag, once up, is still up. *)
Definition joined_stays : relation world :=
  fun w w' => is_in_mesh (self w) = true -> is_in_mesh (self w') = true.

(** A discovery announcement: [--hello--] to the broadcast address,
    counted where the frame is handed to the radio. *)
Definition is_beacon (e : event) : bool :=
  match e with
  | EvSend to data _ =>
      bool_decide (to = BROADCAST_ADDR) && bool_decide (data = "--hello--")
  | _ => false
  end.

(** Number of discovery announcements in a trace. *)
Definition beacons (evs : list event) : nat :=
  length (List.filter is_beacon evs).

(** The coroutine adds events, none of them a discovery announcement. *)
Definition silent : relation world :=
  fun w w' => exists evs, trace w' = trace w ++ evs /\ beacons evs = 0%nat.

(** One turn of the beacon loop, resumed as soon as it can be: the test
    and the call of [asend]; the send and the call of [sleep(1)]; the
    second going by. *)
Definition beacon_round : list action := [Beacon; Beacon; Elapse 1].

Fixpoint beacon_rounds (n : nat) : list action :=
  match n with
  | O => []
  | S k => beacon_round ++ beacon_rounds k
  end.

(** The beacon task is at its loop test and may run. *)
Definition beacon_due (s : system) : Prop :=
  match sys_beacon s with
  | BeaconReady => True
  | BeaconAsleep wake => wake <= clock (sys_world s)
  | _ => False
  end.

(** Announcements the beacon task is committed to: one when it is
    suspended inside [asend], past the loop test. *)
Definition in_flight (s : system) : nat :=
  match sys_beacon s with
  | BeaconInSend => 1
  | _ => 0
  end.

(** Actions that bring the beacon task, wherever it is suspended, back to
    its loop test: the pending send if there is one, the rest of the
    sleep, the test. *)
Definition wind_down (s : system) : list action :=
  match sys_beacon s with
  | BeaconReady => [Beacon]
  | BeaconInSend => [Beacon; Elapse 1; Beacon]
  | BeaconAsleep wake =>
      [Elapse (Z.to_nat (wake - clock (sys_world s))); Beacon]
  | BeaconExited => []
  end.

(** The broadcast address is on the link-layer list and has no entry. *)
Definition broadcast_unknown (s : Mesh) : Prop :=
  BROADCAST_ADDR ∈ registered (mesh s) /\ peers s !! BROADCAST_ADDR = None.

Definition guarded : relation world :=
  fun w w' => broadcast_unknown (self w) -> broadcast_unknown (self w').

(** What the three tasks of [start()] do. *)
Definition task_action (a : action) : bool :=
  match a with
  | Beacon | Frame _ _ | Notify | Elapse _ => true
  | _ => false
  end.

(** No entry of [peers] disappears. *)
Definition entries_stay : relation world :=
  fun w w' =>
    forall b, is_Some (peers (self w) !! b) -> is_Some (peers (self w') !! b).

(** Every registered address but the broadcast one has an entry. *)
Definition covered (s : Mesh) : Prop :=
  forall a, a ∈ registered (mesh s) -> a ≠ BROADCAST_ADDR -> is_Some (peers s !! a).

Definition covering : relation world :=
  fun w w' => covered (self w) -> covered (self w').

(** World in which [add_peer] is entered for an unregistered sender. *)
Definition adding_world (a : mac) (payload : string) (w : world) : world :=
  mkWorld (self w) (clock w) (radio w) (sent w)
          (trace w ++ [EvPrint (MsgFrame payload); EvPrint (MsgAddingPeer a)]).

(** A neighbour's address: six bytes, [A-node], [B-node], ... *)
Definition node (i : nat) : mac := String (Ascii.ascii_of_nat (65 + i)) "-node".

Definition node_A : mac := node 0.

(** A radio on which no frame is ever acknowledged. *)
Definition dead_air : nat -> bool := fun _ => false.

(** A radio that acknowledges the third frame. *)
Definition third_time : nat -> bool := fun n => List.nth n [false; false; true] false.

(** A started node that has heard a beacon of [node_A]. *)
Definition paired_node (air : nat -> bool) : system :=
  step (started 20 air) (Frame node_A "--hello--").




(** Nothing about an address other than [a] has changed: its entry in
    [peers], and whether the link layer knows it. *)
Definition others_untouched (a : mac) : relation world :=
  fun w w' =>
    forall b, b ≠ a ->
      peers (self w') !! b = peers (self w) !! b /\
      (b ∈ registered (mesh (self w')) <-> b ∈ registered (mesh (self w))).

(** The joined flag is what it was. *)
Definition same_flag : relation world :=
  fun w w' => is_in_mesh (self w') = is_in_mesh (self w).

(** Every entry of [peers] sits under the address it records. *)
Definition keyed (s : Mesh) : Prop :=
  forall a p, peers s !! a = Some p -> mac_address p = a.

Definition keying : relation world :=
  fun w w' => keyed (self w) -> keyed (self w').

(** The peers the link layer knows have a clean failure counter. *)
Definition counters_clear (s : Mesh) : Prop :=
  forall a p,
    a ∈ registered (mesh s) -> peers s !! a = Some p -> failure_count p = 0.

Definition clearing : relation world :=
  fun w w' => counters_clear (self w) -> counters_clear (self w').



(** * Properties *)

Ltac coro_unfold :=
  unfold send_message, set_failure_count, peers_getitem, peers_setitem,
    peers_delitem, set_peers, set_is_in_mesh, set_registered, mesh_asend,
    mesh_get_peer, mesh_add_peer, mesh_del_peer, mesh_get_peers, mesh_active,
    broadcast, print, emit, sleep, utcnow, get_self, put_self, decode,
    try_except, raise, bind, ret in *.

Lemma loop_missing n m a w :
  peers (self w) !! a = None ->
  send_message_loop (S n) m a w =
    (Raise (KeyError a),
     mkWorld (self w) (clock w) (radio w) (S (sent w))
             (trace w ++ [EvSend a m (radio w (sent w))])).
Proof.
  intros Hnone. simpl. coro_unfold. simpl.
  destruct (radio w (sent w)); simpl; rewrite Hnone; reflexivity.
Qed.

Lemma loop_success n m a w p :
  peers (self w) !! a = Some p ->
  radio w (sent w) = true ->
  send_message_loop (S n) m a w =
    (Done tt,
     mkWorld (mkMesh (is_in_mesh (self w))
                     (<[a := with_failure_count p 0]> (peers (self w)))
                     (mesh (self w)))
             (clock w) (radio w) (S (sent w))
             (trace w ++ [EvSend a m true])).
Proof.
  intros Hp Hok. simpl. coro_unfold. simpl.
  rewrite Hok. simpl. rewrite Hp. reflexivity.
Qed.

Lemma loop_retry n m a w p :
  peers (self w) !! a = Some p ->
  radio w (sent w) = false ->
  failure_count p + 1 < 5 ->
  send_message_loop (S n) m a w = send_message_loop n m a (retry_world a m p w).
Proof.
  intros Hp Hok Hlt. simpl. coro_unfold. simpl.
  rewrite Hok. simpl. rewrite Hp. simpl.
  repeat (rewrite lookup_insert_eq; simpl).
  destruct (Z.leb_spec 5 (failure_count p + 1)); [lia|]. simpl.
  unfold retry_world. rewrite <- !app_assoc. reflexivity.
Qed.

Lemma loop_evict n m a w p :
  peers (self w) !! a = Some p ->
  radio w (sent w) = false ->
  5 <= failure_count p + 1 ->
  send_message_loop (S n) m a w = remove_peer a (threshold_world a m p w).
Proof.
  intros Hp Hok Hge. simpl. coro_unfold. simpl.
  rewrite Hok. simpl. rewrite Hp. simpl.
  repeat (rewrite lookup_insert_eq; simpl).
  destruct (Z.leb_spec 5 (failure_count p + 1)); [|lia]. simpl.
  unfold threshold_world, remove_peer. coro_unfold. simpl.
  rewrite <- !app_assoc. reflexivity.
Qed.

(** [remove_peer] always returns; the [del] on the dictionary is never
    reached: either [del_peer] raises, or awaiting its [None] does. *)
Lemma remove_peer_registered a w :
  a ∈ registered (mesh (self w)) ->
  remove_peer a w =
    (Done tt,
     mkWorld (mkMesh (is_in_mesh (self w)) (peers (self w))
                     (mkESPNow (active (mesh (self w))) (capacity (mesh (self w)))
                               (filter (fun b => b ≠ a) (registered (mesh (self w))))))
             (clock w) (radio w) (sent w)
             (trace w ++ [EvPrint (MsgFailedToRemove TypeError)])).
Proof.
  intros Hin. unfold remove_peer, await_value. coro_unfold. simpl.
  rewrite bool_decide_eq_true_2 by assumption. reflexivity.
Qed.

Lemma remove_peer_unregistered a w :
  a ∉ registered (mesh (self w)) ->
  remove_peer a w =
    (Done tt,
     mkWorld (self w) (clock w) (radio w) (sent w)
             (trace w ++ [EvPrint (MsgFailedToRemove (OSError ESP_ERR_ESPNOW_NOT_FOUND))])).
Proof.
  intros Hin. unfold remove_peer, await_value. coro_unfold. simpl.
  rewrite bool_decide_eq_false_2 by assumption. reflexivity.
Qed.

Lemma remove_peer_facts a w :
  exists w' e,
    remove_peer a w = (Done tt, w') /\
    peers (self w') = peers (self w) /\
    is_in_mesh (self w') = is_in_mesh (self w) /\
    (a ∉ registered (mesh (self w'))) /\
    clock w' = clock w /\ radio w' = radio w /\ sent w' = sent w /\
    trace w' = trace w ++ [EvPrint (MsgFailedToRemove e)].
Proof.
  destruct (decide (a ∈ registered (mesh (self w)))) as [Hin|Hout].
  - rewrite (remove_peer_registered _ _ Hin). do 2 eexists. split; [reflexivity|].
    simpl. repeat split; try reflexivity.
    intros Hmem. apply list_elem_of_filter in Hmem as [Hne _]. congruence.
  - rewrite (remove_peer_unregistered _ _ Hout). do 2 eexists. split; [reflexivity|].
    simpl. repeat split; try reflexivity. assumption.
Qed.

(** ** The retry loop *)

Lemma send_message_loop_spec n : forall m a w p,
  peers (self w) !! a = Some p ->
  (Z.to_nat (4 - failure_count p) < n)%nat ->
  exists w' evs,
    send_message_loop n m a w = (Done tt, w') /\
    trace w' = trace w ++ evs /\
    sent w' = (sent w + attempts a evs)%nat /\
    (1 <= attempts a evs)%nat /\
    (attempts a evs <= S (Z.to_nat (4 - failure_count p)))%nat /\
    (forall since,
        pauses since evs = since_list since ++ replicate (attempts a evs - 1) 1) /\
    ((last evs = Some (EvSend a m true) /\
      peers (self w') !! a = Some (with_failure_count p 0))
     \/
     (In (EvPrint (MsgRemovingPeer a)) evs /\ delivered evs = false /\
      a ∉ registered (mesh (self w')))).
Proof.
  induction n as [|n IH]; intros m a w p Hp Hfuel; [lia|].
  destruct (radio w (sent w)) eqn:Hok.
  - rewrite (loop_success _ _ _ _ _ Hp Hok).
    eexists; exists [EvSend a m true]. split; [reflexivity|]. simpl.
    rewrite bool_decide_eq_true_2 by reflexivity. simpl.
    split; [reflexivity|]. split; [lia|]. split; [lia|]. split; [lia|]. split.
    + intros since. reflexivity.
    + left. split; [reflexivity|]. apply lookup_insert_eq.
  - destruct (Z_lt_ge_dec (failure_count p + 1) 5) as [Hlt|Hge].
    + rewrite (loop_retry _ _ _ _ _ Hp Hok Hlt).
      destruct (IH m a (retry_world a m p w)
                   (with_failure_count p (failure_count p + 1)))
        as (w' & evs & Hrun & Htr & Hsent & Hlo & Hhi & Hpa & Hend).
      { simpl. apply lookup_insert_eq. }
      { simpl. lia. }
      exists w'.
      exists ([EvSend a m false;
               EvPrint (MsgFailedToSend a (failure_count p + 1));
               EvSleep 1] ++ evs).
      split; [exact Hrun|].
      split. { rewrite Htr. simpl. rewrite <- app_assoc. reflexivity. }
      simpl. rewrite bool_decide_eq_true_2 by reflexivity. simpl in *.
      split; [lia|]. split; [lia|]. split; [lia|]. split.
      * intros since. rewrite Hpa. simpl. rewrite Nat.sub_0_r.
        destruct (attempts a evs) as [|k]; [lia|].
        simpl. rewrite Nat.sub_0_r. reflexivity.
      * destruct Hend as [[Hlast Hcnt]|(Hrm & Hdel & Hreg)].
        -- left. split; [|exact Hcnt].
           destruct evs as [|e evs]; [discriminate|]. exact Hlast.
        -- right. repeat split; auto.
    + rewrite (loop_evict _ _ _ _ _ Hp Hok) by lia.
      destruct (remove_peer_facts a (threshold_world a m p w))
        as (w' & e & Hrun & _ & _ & Hreg & _ & _ & Hsent & Htr).
      exists w'.
      exists [EvSend a m false;
              EvPrint (MsgFailedToSend a (failure_count p + 1));
              EvPrint (MsgRemovingPeer a);
              EvPrint (MsgFailedToRemove e)].
      split; [exact Hrun|].
      split. { rewrite Htr. simpl. rewrite <- app_assoc. reflexivity. }
      simpl. rewrite bool_decide_eq_true_2 by reflexivity. simpl.
      split; [rewrite Hsent; simpl; lia|]. split; [lia|]. split; [lia|]. split.
      * intros since. rewrite app_nil_r. reflexivity.
      * right. split; [tauto|]. split; [reflexivity|exact Hreg].
Qed.

Lemma send_message_loop_delivers k : forall n m a w p,
  peers (self w) !! a = Some p ->
  (forall i, (i < k)%nat -> radio w (sent w + i)%nat = false) ->
  radio w (sent w + k)%nat = true ->
  (k = 0%nat \/ failure_count p + Z.of_nat k < 5) ->
  exists w' evs,
    send_message_loop (k + S n) m a w = (Done tt, w') /\
    peers (self w') !! a = Some (with_failure_count p 0) /\
    trace w' = trace w ++ evs ++ [EvSend a m true] /\
    attempts a evs = k /\ delivered evs = false.
Proof.
  induction k as [|k IH]; intros n m a w p Hp Hfail Hok Hroom.
  - rewrite Nat.add_0_r in Hok. change (0 + S n)%nat with (S n).
    rewrite (loop_success _ _ _ _ _ Hp Hok).
    eexists; exists []. split; [reflexivity|]. simpl.
    split; [apply lookup_insert_eq|]. auto.
  - assert (Hfirst : radio w (sent w) = false).
    { rewrite <- (Nat.add_0_r (sent w)). apply Hfail. lia. }
    assert (Hlt : failure_count p + 1 < 5) by lia.
    change (S k + S n)%nat with (S (k + S n)).
    rewrite (loop_retry _ _ _ _ _ Hp Hfirst Hlt).
    destruct (IH n m a (retry_world a m p w)
                 (with_failure_count p (failure_count p + 1)))
      as (w' & evs & Hrun & Hcnt & Htr & Hatt & Hdel).
    { simpl. apply lookup_insert_eq. }
    { intros i Hi. simpl. rewrite <- Nat.add_succ_r. apply Hfail. lia. }
    { simpl. rewrite <- Nat.add_succ_r. exact Hok. }
    { right. simpl. lia. }
    exists w'.
    exists ([EvSend a m false;
             EvPrint (MsgFailedToSend a (failure_count p + 1));
             EvSleep 1] ++ evs).
    split; [exact Hrun|]. split; [exact Hcnt|].
    split. { rewrite Htr. simpl. rewrite <- app_assoc. reflexivity. }
    simpl. rewrite bool_decide_eq_true_2 by reflexivity.
    split; [lia|exact Hdel].
Qed.

(** ** Relating the world before and after a coroutine *)

Section Keeps.
Context (R : relation world) `{!PreOrder R}.

Lemma keeps_ret {A} (a : A) : keeps R (ret a).
Proof. intros w. simpl. reflexivity. Qed.

Lemma keeps_raise {A} (e : exn) : keeps R (raise (A := A) e).
Proof. intros w. simpl. reflexivity. Qed.

Lemma keeps_get_self : keeps R get_self.
Proof. intros w. simpl. reflexivity. Qed.

Lemma keeps_utcnow : keeps R utcnow.
Proof. intros w. simpl. reflexivity. Qed.

Lemma keeps_await_value v : keeps R (await_value v).
Proof. intros w. destruct v; simpl; reflexivity. Qed.

Lemma keeps_decode payload : keeps R (decode payload).
Proof. intros w. unfold decode. destruct (utf8_check 0 payload); simpl; reflexivity. Qed.

Lemma keeps_bind {A B} (m : M A) (k : A -> M B) :
  keeps R m -> (forall a, keeps R (k a)) -> keeps R (bind m k).
Proof.
  intros Hm Hk w. unfold bind. specialize (Hm w).
  destruct (m w) as [[a| | |] w1]; simpl in *; try exact Hm.
  etransitivity; [exact Hm|apply Hk].
Qed.

Lemma keeps_try_except {A} (body : M A) (handler : exn -> M A) :
  keeps R body -> (forall e, keeps R (handler e)) ->
  keeps R (try_except body handler).
Proof.
  intros Hm Hk w. unfold try_except. specialize (Hm w).
  destruct (body w) as [[a|e| |] w1]; simpl in *; try exact Hm.
  etransitivity; [exact Hm|apply Hk].
Qed.

Lemma keeps_fuel {A} : keeps R (fun w => (Fuel (A := A), w)).
Proof. intros w. simpl. reflexivity. Qed.
End Keeps.

Create HintDb coro.
#[local] Hint Resolve keeps_ret keeps_raise keeps_get_self keeps_utcnow
  keeps_await_value keeps_decode keeps_fuel : coro.

(** Takes a coroutine apart along its control structure. *)
Ltac keeps_walk :=
  repeat match goal with
  | |- keeps _ (bind _ _) => apply keeps_bind; [try apply _| |intros ?]
  | |- keeps _ (try_except _ _) => apply keeps_try_except; [try apply _| |intros ?]
  | |- keeps _ (if ?b then _ else _) => destruct b
  | |- keeps _ (match ?x with _ => _ end) => destruct x
  | |- keeps _ _ => solve [auto with coro typeclass_instances]
  end.

(** *** The joined flag never falls back *)

#[local] Instance joined_stays_preorder : PreOrder joined_stays.
Proof. split; unfold joined_stays; [intros w; auto|intros a b c; auto]. Qed.

Lemma joined_set_registered l : keeps joined_stays (set_registered l).
Proof. intros w H. exact H. Qed.

Lemma joined_mesh_active b : keeps joined_stays (mesh_active b).
Proof. intros w H. exact H. Qed.

Lemma joined_set_peers d : keeps joined_stays (set_peers d).
Proof. intros w H. exact H. Qed.

Lemma joined_set_is_in_mesh_true : keeps joined_stays (set_is_in_mesh true).
Proof. intros w H. reflexivity. Qed.

Lemma joined_emit e : keeps joined_stays (emit e).
Proof. intros w H. exact H. Qed.

Lemma joined_sleep d : keeps joined_stays (sleep d).
Proof. intros w H. exact H. Qed.

Lemma joined_elapse d : keeps joined_stays (elapse d).
Proof. intros w H. exact H. Qed.

Lemma joined_mesh_asend a data : keeps joined_stays (mesh_asend a data).
Proof. intros w H. exact H. Qed.

#[local] Hint Resolve joined_set_registered joined_mesh_active joined_set_peers
  joined_set_is_in_mesh_true joined_emit joined_sleep joined_elapse
  joined_mesh_asend : coro.

Lemma joined_add_peer a : keeps joined_stays (add_peer a).
Proof.
  unfold add_peer, mesh_get_peer, mesh_add_peer, peers_setitem, print.
  keeps_walk.
Qed.

Lemma joined_remove_peer a : keeps joined_stays (remove_peer a).
Proof.
  unfold remove_peer, mesh_del_peer, peers_delitem, print.
  keeps_walk.
Qed.
#[local] Hint Resolve joined_add_peer joined_remove_peer : coro.

Lemma joined_send_message_loop n m a : keeps joined_stays (send_message_loop n m a).
Proof.
  induction n as [|n IH]; simpl; [auto with coro typeclass_instances|].
  unfold set_failure_count, peers_getitem, peers_setitem, print.
  keeps_walk.
Qed.

Lemma joined_send_message m a : keeps joined_stays (send_message m a).
Proof. intros w. apply joined_send_message_loop. Qed.
#[local] Hint Resolve joined_send_message : coro.

Lemma joined_notify_each l : keeps joined_stays (notify_each l).
Proof. induction l as [|a l IH]; simpl; unfold print; keeps_walk. Qed.
#[local] Hint Resolve joined_notify_each : coro.

Lemma joined_notify_cycle : keeps joined_stays notify_cycle.
Proof. unfold notify_cycle, mesh_get_peers. keeps_walk. Qed.

Lemma joined_receiver_body a payload : keeps joined_stays (receiver_body a payload).
Proof. unfold receiver_body, mesh_get_peer, print. keeps_walk. Qed.

Lemma joined_remove_all_peers : keeps joined_stays remove_all_peers.
Proof. unfold remove_all_peers, mesh_get_peers. keeps_walk. Qed.

Lemma joined_beacon_resume pc : keeps joined_stays (beacon_resume pc).
Proof.
  unfold beacon_resume, beacon_test, broadcast, print. keeps_walk.
Qed.

Lemma step_world s a :
  exists (A : Type) (m : M A),
    sys_world (step s a) = (m (sys_world s)).2 /\ keeps joined_stays m.
Proof.
  destruct a as [|sender_mac payload| |a|a|a| |d].
  - exists beacon_pc, (beacon_resume (sys_beacon s)). split.
    + simpl.
      destruct (beacon_resume (sys_beacon s) (sys_world s)) as [[pc| | |] w']; reflexivity.
    + apply joined_beacon_resume.
  - exists unit, (receiver_body sender_mac payload).
    split; [reflexivity|apply joined_receiver_body].
  - exists unit, notify_cycle. split; [reflexivity|apply joined_notify_cycle].
  - exists unit, (send_message "Hi" a). split; [reflexivity|apply joined_send_message].
  - exists unit, (add_peer a). split; [reflexivity|apply joined_add_peer].
  - exists unit, (remove_peer a). split; [reflexivity|apply joined_remove_peer].
  - exists unit, remove_all_peers. split; [reflexivity|apply joined_remove_all_peers].
  - exists unit, (elapse d). split; [reflexivity|apply joined_elapse].
Qed.

Lemma joined_step s a :
  is_in_mesh (self (sys_world s)) = true ->
  is_in_mesh (self (sys_world (step s a))) = true.
Proof.
  intros H. destruct (step_world s a) as (A & m & -> & Hm). apply Hm, H.
Qed.

Lemma joined_run_schedule sch : forall s,
  is_in_mesh (self (sys_world s)) = true ->
  is_in_mesh (self (sys_world (run_schedule s sch))) = true.
Proof.
  induction sch as [|a sch IH]; intros s H; simpl; [exact H|].
  apply IH, joined_step, H.
Qed.

(** *** Discovery broadcasts *)

Lemma beacons_app l1 l2 : beacons (l1 ++ l2) = (beacons l1 + beacons l2)%nat.
Proof. unfold beacons. rewrite List.filter_app, length_app. reflexivity. Qed.

#[local] Instance silent_preorder : PreOrder silent.
Proof.
  split.
  - intros w. exists []. rewrite app_nil_r. auto.
  - intros a b c (e1 & H1 & Z1) (e2 & H2 & Z2). exists (e1 ++ e2).
    rewrite H2, H1, <- app_assoc, beacons_app, Z1, Z2. auto.
Qed.

Lemma silent_same_trace {A} (m : M A) :
  (forall w, trace (m w).2 = trace w) -> keeps silent m.
Proof. intros H w. exists []. rewrite H, app_nil_r. auto. Qed.

Lemma silent_set_registered l : keeps silent (set_registered l).
Proof. apply silent_same_trace. reflexivity. Qed.

Lemma silent_mesh_active b : keeps silent (mesh_active b).
Proof. apply silent_same_trace. reflexivity. Qed.

Lemma silent_set_peers d : keeps silent (set_peers d).
Proof. apply silent_same_trace. reflexivity. Qed.

Lemma silent_set_is_in_mesh b : keeps silent (set_is_in_mesh b).
Proof. apply silent_same_trace. reflexivity. Qed.

Lemma silent_elapse d : keeps silent (elapse d).
Proof. apply silent_same_trace. reflexivity. Qed.

Lemma silent_emit e : is_beacon e = false -> keeps silent (emit e).
Proof. intros H w. exists [e]. unfold beacons. simpl. rewrite H. auto. Qed.

Lemma silent_sleep d : keeps silent (sleep d).
Proof. intros w. exists [EvSleep d]. auto. Qed.

Lemma silent_mesh_asend a data :
  data ≠ "--hello--" -> keeps silent (mesh_asend a data).
Proof.
  intros H w. eexists [_]. split; [reflexivity|].
  unfold beacons. simpl. rewrite (bool_decide_eq_false_2 _ H), andb_false_r.
  reflexivity.
Qed.

#[local] Hint Resolve silent_set_registered silent_mesh_active silent_set_peers
  silent_set_is_in_mesh silent_elapse silent_sleep : coro.
#[local] Hint Extern 1 (keeps silent (emit _)) =>
  apply silent_emit; reflexivity : coro.
#[local] Hint Extern 1 (keeps silent (mesh_asend _ _)) =>
  apply silent_mesh_asend; assumption : coro.

Lemma silent_add_peer a : keeps silent (add_peer a).
Proof.
  unfold add_peer, mesh_get_peer, mesh_add_peer, peers_setitem, print.
  keeps_walk.
Qed.

Lemma silent_remove_peer a : keeps silent (remove_peer a).
Proof.
  unfold remove_peer, mesh_del_peer, peers_delitem, print.
  keeps_walk.
Qed.
#[local] Hint Resolve silent_add_peer silent_remove_peer : coro.

Lemma silent_send_message_loop n m a :
  m ≠ "--hello--" -> keeps silent (send_message_loop n m a).
Proof.
  intros Hm.
  induction n as [|n IH]; simpl; [auto with coro typeclass_instances|].
  unfold set_failure_count, peers_getitem, peers_setitem, print.
  keeps_walk.
Qed.

Lemma silent_send_message m a : m ≠ "--hello--" -> keeps silent (send_message m a).
Proof. intros Hm w. apply silent_send_message_loop, Hm. Qed.

Lemma silent_probe a : keeps silent (send_message "Hi" a).
Proof. apply silent_send_message. discriminate. Qed.
#[local] Hint Resolve silent_probe : coro.

Lemma silent_notify_each l : keeps silent (notify_each l).
Proof. induction l as [|a l IH]; simpl; unfold print; keeps_walk. Qed.
#[local] Hint Resolve silent_notify_each : coro.

Lemma silent_notify_cycle : keeps silent notify_cycle.
Proof. unfold notify_cycle, mesh_get_peers. keeps_walk. Qed.

Lemma silent_receiver_body a payload : keeps silent (receiver_body a payload).
Proof. unfold receiver_body, mesh_get_peer, print. keeps_walk. Qed.

Lemma silent_remove_all_peers : keeps silent remove_all_peers.
Proof. unfold remove_all_peers, mesh_get_peers. keeps_walk. Qed.

(** Every action but the beacon's own leaves the beacon task where it is
    and announces nothing. *)
Lemma other_tasks_silent s a :
  a ≠ Beacon ->
  sys_beacon (step s a) = sys_beacon s /\
  silent (sys_world s) (sys_world (step s a)).
Proof.
  intros Ha. destruct a as [|sender_mac payload| |a|a|a| |d];
    [congruence|..]; (split; [reflexivity|]); simpl.
  - apply silent_receiver_body.
  - apply silent_notify_cycle.
  - apply silent_probe.
  - apply silent_add_peer.
  - apply silent_remove_peer.
  - apply silent_remove_all_peers.
  - apply silent_elapse.
Qed.

(** Resumed inside [asend], the beacon task sends its announcement,
    whatever the flag says by then, and goes to sleep. *)
Lemma beacon_resume_in_send w :
  beacon_resume BeaconInSend w =
    (Done (BeaconAsleep (clock w + 1)),
     mkWorld (self w) (clock w) (radio w) (S (sent w))
             (trace w ++ [EvSend BROADCAST_ADDR "--hello--" (radio w (sent w));
                          EvSleep 1])).
Proof.
  simpl. coro_unfold. simpl. rewrite <- app_assoc. reflexivity.
Qed.

(** Resumed from its sleep, the beacon task is at its loop test. *)
Lemma beacon_resume_asleep wake w :
  beacon_resume (BeaconAsleep wake) w =
    if (wake <=? clock w)%Z then beacon_test w else (Done (BeaconAsleep wake), w).
Proof. simpl. unfold bind, utcnow. destruct (wake <=? clock w); reflexivity. Qed.

(** At its loop test with the flag up, the beacon task returns. *)
Lemma beacon_test_joined w :
  is_in_mesh (self w) = true ->
  beacon_test w =
    (Done BeaconExited,
     mkWorld (self w) (clock w) (radio w) (sent w)
             (trace w ++ [EvPrint MsgBeaconExiting])).
Proof. intros Hj. unfold beacon_test. coro_unfold. simpl. rewrite Hj. reflexivity. Qed.

(** At its loop test with the flag down, the beacon task enters [asend]. *)
Lemma beacon_test_alone w :
  is_in_mesh (self w) = false ->
  beacon_test w = (Done BeaconInSend, w).
Proof. intros Hj. unfold beacon_test. coro_unfold. simpl. rewrite Hj. reflexivity. Qed.

Lemma beacon_step_world s :
  sys_world (step s Beacon) = (beacon_resume (sys_beacon s) (sys_world s)).2.
Proof.
  simpl.
  destruct (beacon_resume (sys_beacon s) (sys_world s)) as [[pc| | |] w']; reflexivity.
Qed.

(** Once the flag is up, the only announcement still to come is the one
    the beacon task is committed to: every step either makes it or
    leaves it pending, and makes no other. *)
Lemma joined_step_accounts s a :
  is_in_mesh (self (sys_world s)) = true ->
  exists evs,
    trace (sys_world (step s a)) = trace (sys_world s) ++ evs /\
    (beacons evs + in_flight (step s a) = in_flight s)%nat.
Proof.
  intros Hj.
  destruct a;
    [|match goal with
      | |- context [step s ?a] =>
          destruct (other_tasks_silent s a ltac:(discriminate))
            as (Hpc & evs & Htr & Hb);
          exists evs; split; [exact Htr|];
          unfold in_flight; rewrite Hpc, Hb; reflexivity
      end..].
  destruct s as [w pc]. simpl in Hj. unfold in_flight, step.
  cbn [sys_beacon sys_world].
  destruct pc as [| |wake|].
  - cbn [beacon_resume]. rewrite (beacon_test_joined w Hj). simpl.
    exists [EvPrint MsgBeaconExiting]. auto.
  - rewrite beacon_resume_in_send. simpl.
    eexists. split; reflexivity.
  - rewrite beacon_resume_asleep.
    destruct (wake <=? clock w).
    + rewrite (beacon_test_joined w Hj). simpl.
      exists [EvPrint MsgBeaconExiting]. auto.
    + simpl. exists []. rewrite app_nil_r. auto.
  - simpl. exists []. rewrite app_nil_r. auto.
Qed.

Lemma joined_run_accounts sch : forall s,
  is_in_mesh (self (sys_world s)) = true ->
  exists evs,
    trace (sys_world (run_schedule s sch)) = trace (sys_world s) ++ evs /\
    (beacons evs + in_flight (run_schedule s sch) = in_flight s)%nat.
Proof.
  induction sch as [|a sch IH]; intros s Hj; simpl.
  - exists []. rewrite app_nil_r. auto.
  - destruct (joined_step_accounts s a Hj) as (evs1 & Htr1 & Hb1).
    destruct (IH (step s a) (joined_step s a Hj)) as (evs2 & Htr2 & Hb2).
    exists (evs1 ++ evs2). split.
    + rewrite Htr2, Htr1, <- app_assoc. reflexivity.
    + rewrite beacons_app. lia.
Qed.

Lemma exited_step s a :
  sys_beacon s = BeaconExited ->
  sys_beacon (step s a) = BeaconExited /\
  silent (sys_world s) (sys_world (step s a)).
Proof.
  intros He. rewrite <- He at 1.
  destruct a; [|apply other_tasks_silent; discriminate..].
  simpl. rewrite He. simpl. split; reflexivity.
Qed.

Lemma exited_run sch : forall s,
  sys_beacon s = BeaconExited ->
  sys_beacon (run_schedule s sch) = BeaconExited /\
  silent (sys_world s) (sys_world (run_schedule s sch)).
Proof.
  induction sch as [|a sch IH]; intros s He; simpl; [split; [exact He|reflexivity]|].
  destruct (exited_step s a He) as [He1 Hs1].
  destruct (IH _ He1) as [He2 Hs2].
  split; [exact He2|]. etransitivity; eassumption.
Qed.

Lemma beacon_round_spec s :
  beacon_due s ->
  is_in_mesh (self (sys_world s)) = false ->
  let s' := run_schedule s beacon_round in
  beacon_due s' /\
  self (sys_world s') = self (sys_world s) /\
  clock (sys_world s') = clock (sys_world s) + 1 /\
  trace (sys_world s') =
    trace (sys_world s) ++
      [EvSend BROADCAST_ADDR "--hello--"
              (radio (sys_world s) (sent (sys_world s))); EvSleep 1].
Proof.
  intros Hdue Hj. destruct s as [w pc]. unfold beacon_due in Hdue. simpl in *.
  assert (Htest : beacon_resume pc w = (Done BeaconInSend, w)).
  { destruct pc as [| |wake|]; try contradiction.
    - apply beacon_test_alone, Hj.
    - rewrite beacon_resume_asleep.
      destruct (Z.leb_spec wake (clock w)); [|lia].
      apply beacon_test_alone, Hj. }
  rewrite Htest. cbn [sys_world sys_beacon]. rewrite beacon_resume_in_send.
  simpl. unfold beacon_due. simpl.
  split; [lia|]. split; [reflexivity|]. split; [lia|reflexivity].
Qed.

Lemma run_schedule_app s sch1 sch2 :
  run_schedule s (sch1 ++ sch2) = run_schedule (run_schedule s sch1) sch2.
Proof. apply fold_left_app. Qed.

Lemma beacon_rounds_spec n : forall s,
  beacon_due s ->
  is_in_mesh (self (sys_world s)) = false ->
  let s' := run_schedule s (beacon_rounds n) in
  beacon_due s' /\
  self (sys_world s') = self (sys_world s) /\
  clock (sys_world s') = clock (sys_world s) + Z.of_nat n /\
  exists evs,
    trace (sys_world s') = trace (sys_world s) ++ evs /\
    beacons evs = n /\
    forall since,
      pauses since evs =
        match n with
        | O => []
        | S k => since_list since ++ replicate k 1
        end.
Proof.
  induction n as [|n IH]; intros s Hdue Hj.
  - simpl. split; [exact Hdue|]. split; [reflexivity|]. split; [lia|].
    exists []. rewrite app_nil_r. auto.
  - cbn [beacon_rounds]. rewrite run_schedule_app.
    destruct (beacon_round_spec s Hdue Hj) as (Hdue1 & Hself1 & Hclk1 & Htr1).
    set (s1 := run_schedule s beacon_round) in *.
    destruct (IH s1 Hdue1) as (Hdue2 & Hself2 & Hclk2 & evs & Htr2 & Hb & Hp).
    { rewrite Hself1. exact Hj. }
    cbv zeta. split; [exact Hdue2|].
    split; [congruence|]. split; [lia|].
    eexists (_ :: _ :: evs). split.
    { rewrite Htr2, Htr1, <- app_assoc. reflexivity. }
    split.
    { unfold beacons in *. simpl. rewrite Hb. reflexivity. }
    intros since. simpl. rewrite Hp. destruct n; reflexivity.
Qed.

(** *** The broadcast address: registered, yet no peer *)

#[local] Instance guarded_preorder : PreOrder guarded.
Proof. split; unfold guarded; [intros w; auto|intros a b c; auto]. Qed.

Lemma guarded_same_self {A} (m : M A) :
  (forall w, self (m w).2 = self w) -> keeps guarded m.
Proof. intros H w Hg. rewrite H. exact Hg. Qed.

Lemma guarded_emit e : keeps guarded (emit e).
Proof. apply guarded_same_self. reflexivity. Qed.

Lemma guarded_sleep d : keeps guarded (sleep d).
Proof. apply guarded_same_self. reflexivity. Qed.

Lemma guarded_elapse d : keeps guarded (elapse d).
Proof. apply guarded_same_self. reflexivity. Qed.

Lemma guarded_mesh_asend a data : keeps guarded (mesh_asend a data).
Proof. apply guarded_same_self. reflexivity. Qed.

Lemma guarded_set_is_in_mesh b : keeps guarded (set_is_in_mesh b).
Proof. intros w Hg. exact Hg. Qed.

Lemma guarded_mesh_active b : keeps guarded (mesh_active b).
Proof. intros w Hg. exact Hg. Qed.

Lemma guarded_mesh_add_peer a : keeps guarded (mesh_add_peer a).
Proof.
  intros w [Hreg Hnone]. unfold mesh_add_peer. coro_unfold. simpl.
  destruct (bool_decide _); simpl; [split; assumption|].
  destruct (_ <=? _)%nat; simpl; split; try assumption.
  apply elem_of_app. left. exact Hreg.
Qed.

Lemma guarded_mesh_del_peer a :
  a ≠ BROADCAST_ADDR -> keeps guarded (mesh_del_peer a).
Proof.
  intros Ha w [Hreg Hnone]. unfold mesh_del_peer. coro_unfold. simpl.
  destruct (bool_decide _); simpl; split; try assumption.
  apply list_elem_of_filter. split; [congruence|exact Hreg].
Qed.

Lemma guarded_peers_setitem a p :
  a ≠ BROADCAST_ADDR -> keeps guarded (peers_setitem a p).
Proof.
  intros Ha w [Hreg Hnone]. split; [exact Hreg|]. simpl.
  rewrite lookup_insert_ne by exact Ha. exact Hnone.
Qed.

Lemma guarded_peers_delitem a : keeps guarded (peers_delitem a).
Proof.
  intros w [Hreg Hnone]. unfold peers_delitem. coro_unfold. simpl.
  destruct (peers (self w) !! a); simpl; split; try assumption.
  apply lookup_delete_None. right. exact Hnone.
Qed.

#[local] Hint Resolve guarded_emit guarded_sleep guarded_elapse guarded_mesh_asend
  guarded_set_is_in_mesh guarded_mesh_active guarded_mesh_add_peer
  guarded_peers_delitem : coro.
#[local] Hint Extern 1 (keeps guarded (mesh_del_peer _)) =>
  apply guarded_mesh_del_peer; assumption : coro.
#[local] Hint Extern 1 (keeps guarded (peers_setitem _ _)) =>
  apply guarded_peers_setitem; assumption : coro.

Lemma guarded_remove_peer a :
  a ≠ BROADCAST_ADDR -> keeps guarded (remove_peer a).
Proof. intros Ha. unfold remove_peer, print. keeps_walk. Qed.

Lemma guarded_add_peer a : keeps guarded (add_peer a).
Proof.
  destruct (decide (a = BROADCAST_ADDR)) as [->|Ha].
  - intros w [Hreg Hnone]. unfold add_peer, await_value. coro_unfold. simpl.
    rewrite bool_decide_eq_true_2 by exact Hreg. simpl. split; assumption.
  - unfold add_peer, mesh_get_peer, print. keeps_walk.
Qed.
#[local] Hint Resolve guarded_add_peer : coro.
#[local] Hint Extern 1 (keeps guarded (remove_peer _)) =>
  apply guarded_remove_peer; assumption : coro.

Lemma guarded_send_message_loop n m a : keeps guarded (send_message_loop n m a).
Proof.
  destruct (decide (a = BROADCAST_ADDR)) as [->|Ha].
  - intros w [Hreg Hnone]. destruct n as [|n]; [split; assumption|].
    rewrite (loop_missing _ _ _ _ Hnone). split; assumption.
  - induction n as [|n IH]; simpl; [auto with coro typeclass_instances|].
    unfold set_failure_count, peers_getitem, print.
    keeps_walk.
Qed.

Lemma guarded_send_message m a : keeps guarded (send_message m a).
Proof. intros w. apply guarded_send_message_loop. Qed.
#[local] Hint Resolve guarded_send_message : coro.

Lemma guarded_notify_each l : keeps guarded (notify_each l).
Proof. induction l as [|a l IH]; simpl; unfold print; keeps_walk. Qed.
#[local] Hint Resolve guarded_notify_each : coro.

Lemma guarded_notify_cycle : keeps guarded notify_cycle.
Proof. unfold notify_cycle, mesh_get_peers. keeps_walk. Qed.

Lemma guarded_receiver_body a payload : keeps guarded (receiver_body a payload).
Proof. unfold receiver_body, mesh_get_peer, print. keeps_walk. Qed.

Lemma guarded_beacon_resume pc : keeps guarded (beacon_resume pc).
Proof. unfold beacon_resume, beacon_test, broadcast, print. keeps_walk. Qed.

Lemma guarded_step s a :
  task_action a = true ->
  broadcast_unknown (self (sys_world s)) ->
  broadcast_unknown (self (sys_world (step s a))).
Proof.
  intros Ha. destruct a; try discriminate.
  - rewrite beacon_step_world. apply guarded_beacon_resume.
  - apply guarded_receiver_body.
  - apply guarded_notify_cycle.
  - apply guarded_elapse.
Qed.

Lemma guarded_run sch : forall s,
  forallb task_action sch = true ->
  broadcast_unknown (self (sys_world s)) ->
  broadcast_unknown (self (sys_world (run_schedule s sch))).
Proof.
  induction sch as [|a sch IH]; intros s Hsch Hg; simpl in *; [exact Hg|].
  apply andb_true_iff in Hsch as [Ha Hsch].
  apply IH; [exact Hsch|]. apply guarded_step; assumption.
Qed.

Lemma started_broadcast_unknown cap air :
  (0 < cap)%nat -> broadcast_unknown (self (sys_world (started cap air))).
Proof.
  intros Hcap. unfold started, start_radio, boot. coro_unfold. simpl.
  destruct cap as [|cap]; [lia|]. simpl.
  split; [apply list_elem_of_singleton; reflexivity|apply lookup_empty].
Qed.

(** *** Entries of [peers] are never lost *)

#[local] Instance entries_stay_preorder : PreOrder entries_stay.
Proof. split; unfold entries_stay; [intros w; auto|intros a b c; auto]. Qed.

Lemma entries_same_self {A} (m : M A) :
  (forall w, self (m w).2 = self w) -> keeps entries_stay m.
Proof. intros H w b Hb. rewrite H. exact Hb. Qed.

Lemma entries_emit e : keeps entries_stay (emit e).
Proof. apply entries_same_self. reflexivity. Qed.

Lemma entries_sleep d : keeps entries_stay (sleep d).
Proof. apply entries_same_self. reflexivity. Qed.

Lemma entries_mesh_asend a data : keeps entries_stay (mesh_asend a data).
Proof. apply entries_same_self. reflexivity. Qed.

Lemma entries_peers_setitem a p : keeps entries_stay (peers_setitem a p).
Proof.
  intros w b Hb. simpl. destruct (decide (a = b)) as [->|Hab].
  - rewrite lookup_insert_eq. eauto.
  - rewrite lookup_insert_ne by exact Hab. exact Hb.
Qed.

Lemma entries_remove_peer a : keeps entries_stay (remove_peer a).
Proof.
  intros w b Hb.
  destruct (remove_peer_facts a w) as (w' & e & -> & Hp & _). simpl.
  rewrite Hp. exact Hb.
Qed.

#[local] Hint Resolve entries_emit entries_sleep entries_mesh_asend
  entries_peers_setitem entries_remove_peer : coro.

Lemma entries_send_message_loop n m a : keeps entries_stay (send_message_loop n m a).
Proof.
  induction n as [|n IH]; simpl; [auto with coro typeclass_instances|].
  unfold set_failure_count, peers_getitem, print.
  keeps_walk.
Qed.

Lemma entries_send_message m a : keeps entries_stay (send_message m a).
Proof. intros w. apply entries_send_message_loop. Qed.

(** *** How [send_message] ends *)

Lemma send_message_unknown m a w :
  peers (self w) !! a = None ->
  send_message m a w =
    (Raise (KeyError a),
     mkWorld (self w) (clock w) (radio w) (S (sent w))
             (trace w ++ [EvSend a m (radio w (sent w))])).
Proof.
  intros Hnone. unfold send_message, send_message_bound. rewrite Hnone.
  apply loop_missing, Hnone.
Qed.

Lemma send_message_known m a w p :
  peers (self w) !! a = Some p ->
  exists w', send_message m a w = (Done tt, w').
Proof.
  intros Hp. unfold send_message, send_message_bound. rewrite Hp.
  destruct (send_message_loop_spec (S (Z.to_nat (4 - failure_count p))) m a w p Hp)
    as (w' & evs & Hrun & _); [lia|].
  exists w'. exact Hrun.
Qed.

Lemma notify_each_cons a l w :
  notify_each (a :: l) w =
    match send_message "Hi" a (print (MsgNotifyingPeer a) w).2 with
    | (Done _, w1) => notify_each l w1
    | (Raise e, w1) => (Raise e, w1)
    | (Stall, w1) => (Stall, w1)
    | (Fuel, w1) => (Fuel, w1)
    end.
Proof. reflexivity. Qed.

(** A cycle whose snapshot holds the broadcast address ends there. *)
Lemma notify_each_hits_broadcast l : forall w,
  BROADCAST_ADDR ∈ l ->
  (forall b, b ∈ l -> b ≠ BROADCAST_ADDR -> is_Some (peers (self w) !! b)) ->
  broadcast_unknown (self w) ->
  exists w', notify_each l w = (Raise (KeyError BROADCAST_ADDR), w').
Proof.
  induction l as [|a l IH]; intros w Hin Hcov Hg.
  - apply elem_of_nil in Hin. contradiction.
  - rewrite notify_each_cons.
    set (w0 := (print (MsgNotifyingPeer a) w).2).
    assert (Hself : self w0 = self w) by reflexivity.
    destruct (decide (a = BROADCAST_ADDR)) as [->|Ha].
    + rewrite send_message_unknown by (rewrite Hself; apply Hg). eauto.
    + destruct (Hcov a) as [p Hp]; [left|exact Ha|].
      rewrite <- Hself in Hp.
      destruct (send_message_known "Hi" a w0 p Hp) as (w1 & Hrun).
      pose proof (guarded_send_message "Hi" a w0) as Hg1.
      pose proof (entries_send_message "Hi" a w0) as He1.
      rewrite Hrun in *. simpl in Hg1, He1.
      apply IH.
      * apply elem_of_cons in Hin as [Heq|Hin]; [congruence|exact Hin].
      * intros b Hb Hne. apply He1. rewrite Hself. apply Hcov; [right; exact Hb|exact Hne].
      * apply Hg1. rewrite Hself. exact Hg.
Qed.

(** *** Every registered address but the broadcast one has its entry *)

#[local] Instance covering_preorder : PreOrder covering.
Proof. split; unfold covering; [intros w; auto|intros a b c; auto]. Qed.

Lemma covering_same_self {A} (m : M A) :
  (forall w, self (m w).2 = self w) -> keeps covering m.
Proof. intros H w Hc. rewrite H. exact Hc. Qed.

Lemma covering_emit e : keeps covering (emit e).
Proof. apply covering_same_self. reflexivity. Qed.

Lemma covering_sleep d : keeps covering (sleep d).
Proof. apply covering_same_self. reflexivity. Qed.

Lemma covering_elapse d : keeps covering (elapse d).
Proof. apply covering_same_self. reflexivity. Qed.

Lemma covering_mesh_asend a data : keeps covering (mesh_asend a data).
Proof. apply covering_same_self. reflexivity. Qed.

Lemma covering_set_is_in_mesh b : keeps covering (set_is_in_mesh b).
Proof. intros w Hc. exact Hc. Qed.

Lemma covering_peers_setitem a p : keeps covering (peers_setitem a p).
Proof.
  intros w Hc b Hb Hne. simpl in *. destruct (decide (a = b)) as [->|Hab].
  - rewrite lookup_insert_eq. eauto.
  - rewrite lookup_insert_ne by exact Hab. apply Hc; assumption.
Qed.

Lemma covering_remove_peer a : keeps covering (remove_peer a).
Proof.
  intros w Hc. destruct (decide (a ∈ registered (mesh (self w)))) as [Hin|Hout].
  - rewrite (remove_peer_registered _ _ Hin). intros b Hb Hne. simpl in *.
    apply list_elem_of_filter in Hb as [_ Hb]. apply Hc; assumption.
  - rewrite (remove_peer_unregistered _ _ Hout). exact Hc.
Qed.

(** The three ways [add_peer] goes. *)
Lemma add_peer_registered a w :
  a ∈ registered (mesh (self w)) -> add_peer a w = (Stall, w).
Proof.
  intros Hin. unfold add_peer, await_value. coro_unfold. simpl.
  rewrite bool_decide_eq_true_2 by exact Hin. reflexivity.
Qed.

Lemma add_peer_full a w :
  a ∉ registered (mesh (self w)) ->
  (capacity (mesh (self w)) <= length (registered (mesh (self w))))%nat ->
  add_peer a w =
    (Done tt,
     mkWorld (self w) (clock w) (radio w) (sent w)
             (trace w ++ [EvPrint (MsgFailedToAdd (OSError ESP_ERR_ESPNOW_FULL))])).
Proof.
  intros Hout Hfull. unfold add_peer, await_value. coro_unfold. simpl.
  rewrite bool_decide_eq_false_2 by exact Hout. simpl.
  rewrite bool_decide_eq_false_2 by exact Hout. simpl.
  destruct (Nat.leb_spec (capacity (mesh (self w)))
                         (length (registered (mesh (self w))))); [|lia].
  reflexivity.
Qed.

Lemma add_peer_fresh a w :
  a ∉ registered (mesh (self w)) ->
  (length (registered (mesh (self w))) < capacity (mesh (self w)))%nat ->
  add_peer a w =
    (Done tt,
     mkWorld (mkMesh (is_in_mesh (self w))
                     (<[a := Peer_init a (clock w)]> (peers (self w)))
                     (mkESPNow (active (mesh (self w))) (capacity (mesh (self w)))
                               (registered (mesh (self w)) ++ [a])))
             (clock w) (radio w) (sent w) (trace w)).
Proof.
  intros Hout Hroom. unfold add_peer, await_value. coro_unfold. simpl.
  rewrite bool_decide_eq_false_2 by exact Hout. simpl.
  rewrite bool_decide_eq_false_2 by exact Hout. simpl.
  destruct (Nat.leb_spec (capacity (mesh (self w)))
                         (length (registered (mesh (self w))))); [lia|].
  reflexivity.
Qed.

Lemma covering_add_peer a : keeps covering (add_peer a).
Proof.
  intros w Hc. destruct (decide (a ∈ registered (mesh (self w)))) as [Hin|Hout].
  - rewrite (add_peer_registered _ _ Hin). exact Hc.
  - destruct (le_lt_dec (capacity (mesh (self w)))
                        (length (registered (mesh (self w))))) as [Hfull|Hroom].
    + rewrite (add_peer_full _ _ Hout Hfull). exact Hc.
    + rewrite (add_peer_fresh _ _ Hout Hroom).
      intros b Hb Hne. simpl in *. destruct (decide (a = b)) as [->|Hab].
      * rewrite lookup_insert_eq. eauto.
      * rewrite lookup_insert_ne by exact Hab. apply Hc; [|exact Hne].
        apply elem_of_app in Hb as [Hb|Hb]; [exact Hb|].
        apply list_elem_of_singleton in Hb. congruence.
Qed.

#[local] Hint Resolve covering_emit covering_sleep covering_elapse
  covering_mesh_asend covering_set_is_in_mesh covering_peers_setitem
  covering_remove_peer covering_add_peer : coro.

Lemma covering_send_message_loop n m a : keeps covering (send_message_loop n m a).
Proof.
  induction n as [|n IH]; simpl; [auto with coro typeclass_instances|].
  unfold set_failure_count, peers_getitem, print.
  keeps_walk.
Qed.

Lemma covering_send_message m a : keeps covering (send_message m a).
Proof. intros w. apply covering_send_message_loop. Qed.
#[local] Hint Resolve covering_send_message : coro.

Lemma covering_notify_each l : keeps covering (notify_each l).
Proof. induction l as [|a l IH]; simpl; unfold print; keeps_walk. Qed.
#[local] Hint Resolve covering_notify_each : coro.

Lemma covering_notify_cycle : keeps covering notify_cycle.
Proof. unfold notify_cycle, mesh_get_peers. keeps_walk. Qed.

Lemma covering_receiver_body a payload : keeps covering (receiver_body a payload).
Proof. unfold receiver_body, mesh_get_peer, print. keeps_walk. Qed.

Lemma covering_beacon_resume pc : keeps covering (beacon_resume pc).
Proof. unfold beacon_resume, beacon_test, broadcast, print. keeps_walk. Qed.

Lemma covering_run sch : forall s,
  forallb task_action sch = true ->
  covered (self (sys_world s)) ->
  covered (self (sys_world (run_schedule s sch))).
Proof.
  induction sch as [|a sch IH]; intros s Hsch Hc; simpl in *; [exact Hc|].
  apply andb_true_iff in Hsch as [Ha Hsch].
  apply IH; [exact Hsch|]. destruct a; try discriminate.
  - rewrite beacon_step_world. apply covering_beacon_resume, Hc.
  - apply covering_receiver_body, Hc.
  - apply covering_notify_cycle, Hc.
  - apply covering_elapse, Hc.
Qed.

Lemma started_covered cap air : covered (self (sys_world (started cap air))).
Proof.
  unfold started, start_radio, boot. coro_unfold. simpl.
  destruct cap as [|cap]; simpl; intros a Ha Hne.
  - apply elem_of_nil in Ha. contradiction.
  - apply list_elem_of_singleton in Ha. congruence.
Qed.

Lemma notify_cycle_hits_broadcast w :
  broadcast_unknown (self w) -> covered (self w) ->
  exists w', notify_cycle w = (Raise (KeyError BROADCAST_ADDR), w').
Proof.
  intros Hg Hc.
  destruct (notify_each_hits_broadcast (registered (mesh (self w))) w)
    as (w' & Hrun); [apply Hg|exact Hc|exact Hg|].
  exists w'. unfold notify_cycle, mesh_get_peers, get_self, ret, bind.
  rewrite Hrun. reflexivity.
Qed.

(** *** One frame through [receiver_task] *)

Lemma receiver_body_undecodable a payload w :
  utf8_check 0 payload = false ->
  receiver_body a payload w = (Raise UnicodeError, w).
Proof.
  intros Hbad. unfold receiver_body, decode, bind. rewrite Hbad. reflexivity.
Qed.

Lemma receiver_body_known a payload w :
  utf8_check 0 payload = true ->
  a ∈ registered (mesh (self w)) ->
  receiver_body a payload w =
    (Done tt,
     mkWorld (self w) (clock w) (radio w) (sent w)
             (trace w ++ [EvPrint (MsgFrame payload)])).
Proof.
  intros Hok Hin. unfold receiver_body, decode. coro_unfold. simpl.
  rewrite Hok. simpl. rewrite bool_decide_eq_true_2 by exact Hin. reflexivity.
Qed.

Lemma receiver_body_unknown a payload w :
  utf8_check 0 payload = true ->
  a ∉ registered (mesh (self w)) ->
  receiver_body a payload w =
    (add_peer a ;;; set_is_in_mesh true) (adding_world a payload w).
Proof.
  intros Hok Hout. unfold receiver_body, decode.
  unfold mesh_get_peer, print, emit, try_except, raise, bind, ret, get_self.
  rewrite Hok. simpl. rewrite bool_decide_eq_false_2 by exact Hout.
  unfold adding_world. simpl. rewrite <- app_assoc. reflexivity.
Qed.

Lemma receiver_body_refused a payload w :
  utf8_check 0 payload = true ->
  a ∉ registered (mesh (self w)) ->
  (capacity (mesh (self w)) <= length (registered (mesh (self w))))%nat ->
  receiver_body a payload w =
    (Done tt,
     mkWorld (mkMesh true (peers (self w)) (mesh (self w)))
             (clock w) (radio w) (sent w)
             (trace w ++ [EvPrint (MsgFrame payload); EvPrint (MsgAddingPeer a);
                          EvPrint (MsgFailedToAdd (OSError ESP_ERR_ESPNOW_FULL))])).
Proof.
  intros Hok Hout Hfull. rewrite (receiver_body_unknown _ _ _ Hok Hout).
  unfold bind. rewrite add_peer_full by assumption.
  unfold adding_world. simpl. rewrite <- app_assoc. reflexivity.
Qed.

Lemma receiver_body_accepted a payload w :
  utf8_check 0 payload = true ->
  a ∉ registered (mesh (self w)) ->
  (length (registered (mesh (self w))) < capacity (mesh (self w)))%nat ->
  receiver_body a payload w =
    (Done tt,
     mkWorld (mkMesh true
                     (<[a := Peer_init a (clock w)]> (peers (self w)))
                     (mkESPNow (active (mesh (self w))) (capacity (mesh (self w)))
                               (registered (mesh (self w)) ++ [a])))
             (clock w) (radio w) (sent w)
             (trace w ++ [EvPrint (MsgFrame payload); EvPrint (MsgAddingPeer a)])).
Proof.
  intros Hok Hout Hroom. rewrite (receiver_body_unknown _ _ _ Hok Hout).
  unfold bind. rewrite add_peer_fresh by assumption. reflexivity.
Qed.

(** *** Before the first discovery *)









(** * The specification, claim by claim *)



(** C2 (what the code does at the failing input).  Five refused sends to
    a peer that is in [peers] with a clean counter: five attempts are
    made and no more, the link is unregistered, but the entry stays in
    [peers], its counter at 5; [remove_peer] reports a [TypeError]. *)
Theorem evicted_peer_stays_in_peers :
  let w := sys_world (paired_node dead_air) in
  let r := send_message "Hi" node_A w in
  peers (self w) !! node_A = Some (mkPeer node_A 0 0) /\
  r.1 = Done tt /\
  (sent r.2 - sent w)%nat = 5%nat /\
  (node_A ∉ registered (mesh (self r.2))) /\
  peers (self r.2) !! node_A = Some (mkPeer node_A 5 0) /\
  last (trace r.2) = Some (EvPrint (MsgFailedToRemove TypeError)).
Proof.
  cbv zeta. split; [reflexivity|]. split; [reflexivity|]. split; [reflexivity|].
  split; [|split; reflexivity].
  vm_compute. intros H. apply list_elem_of_singleton in H. discriminate.
Qed.

(** C3 (what the code does at the failing input).  On a started node that
    knows [node_A] the cycle takes the link-layer list, broadcast address
    first, probes that address, and ends there with a [KeyError]:
    [node_A] is not probed and the cycle does not reach its pause. *)
Theorem notify_cycle_stops_at_broadcast :
  let w := sys_world (paired_node dead_air) in
  let r := notify_cycle w in
  registered (mesh (self w)) = [BROADCAST_ADDR; node_A] /\
  r.1 = Raise (KeyError BROADCAST_ADDR) /\
  trace r.2 = trace w ++ [EvPrint (MsgNotifyingPeer BROADCAST_ADDR);
                          EvSend BROADCAST_ADDR "Hi" false] /\
  attempts node_A (trace r.2) = 0%nat /\
  clock r.2 = clock w.
Proof. cbv zeta. repeat split; reflexivity. Qed.

(** C4 (what the code does at the failing input).  The unknown-peer
    condition leaves [send_message] as a [KeyError], and leaves
    [notify_task] with it. *)
Theorem unknown_peer_escapes_send_message :
  let w := sys_world (started 20 dead_air) in
  (send_message "Hi" BROADCAST_ADDR w).1 = Raise (KeyError BROADCAST_ADDR) /\
  (notify_task 3 w).1 = Raise (KeyError BROADCAST_ADDR).
Proof. cbv zeta. split; reflexivity. Qed.

(** C5.  [send_message] to an address that has no entry in [peers] makes
    one [send] call and then raises [KeyError], whether the radio
    answered [True] or [False].  On a node run by its three tasks the
    broadcast address stays registered at the link layer and never gets
    an entry, so each cycle of [notify_task] meets it and ends in that
    [KeyError]. *)
Theorem send_message_needs_peers_entry
    (m : string) (a : mac) (w : world)
    (cap : nat) (air : nat -> bool) (sch : list action) :
  peers (self w) !! a = None ->
  (0 < cap)%nat ->
  forallb task_action sch = true ->
  (forall ok, radio w (sent w) = ok ->
     exists w',
       send_message m a w = (Raise (KeyError a), w') /\
       self w' = self w /\
       trace w' = trace w ++ [EvSend a m ok]) /\
  (let here := sys_world (run_schedule (started cap air) sch) in
   (mesh_get_peers here).1 = Done (registered (mesh (self here))) /\
   BROADCAST_ADDR ∈ registered (mesh (self here)) /\
   peers (self here) !! BROADCAST_ADDR = None /\
   exists w', notify_cycle here = (Raise (KeyError BROADCAST_ADDR), w')).
Proof.
  intros Hnone Hcap Hsch. split.
  - intros ok Hok. rewrite (send_message_unknown _ _ _ Hnone). subst ok.
    eexists. split; [reflexivity|]. split; reflexivity.
  - cbv zeta.
    pose proof (guarded_run sch (started cap air) Hsch
                  (started_broadcast_unknown cap air Hcap)) as Hg.
    pose proof (covering_run sch (started cap air) Hsch
                  (started_covered cap air)) as Hc.
    split; [reflexivity|]. split; [apply Hg|]. split; [apply Hg|].
    apply notify_cycle_hits_broadcast; assumption.
Qed.

Lemma send_message_needs_peers_entry_witness :
  (forall ok, dead_air 0%nat = ok ->
     exists w',
       send_message "Hi" BROADCAST_ADDR (sys_world (started 20 dead_air)) =
         (Raise (KeyError BROADCAST_ADDR), w') /\
       self w' = self (sys_world (started 20 dead_air)) /\
       trace w' = trace (sys_world (started 20 dead_air)) ++
                  [EvSend BROADCAST_ADDR "Hi" ok]) /\
  (let here := sys_world (run_schedule (started 20 dead_air)
                            [Beacon; Frame node_A "--hello--"; Beacon; Elapse 1]) in
   (mesh_get_peers here).1 = Done (registered (mesh (self here))) /\
   BROADCAST_ADDR ∈ registered (mesh (self here)) /\
   peers (self here) !! BROADCAST_ADDR = None /\
   exists w', notify_cycle here = (Raise (KeyError BROADCAST_ADDR), w')).
Proof.
  apply (send_message_needs_peers_entry "Hi" BROADCAST_ADDR
           (sys_world (started 20 dead_air)) 20 dead_air
           [Beacon; Frame node_A "--hello--"; Beacon; Elapse 1]);
    [reflexivity|lia|reflexivity].
Defined.

(** C6.  Whatever the counter of a peer in [peers] was, a call of
    [send_message] in which the radio answers [True] (at once, or after
    failures that did not reach the threshold) leaves the counter at 0
    and returns, its last act being the acknowledged send. *)
Theorem send_success_resets_failure_count
    (m : string) (a : mac) (w : world) (p : Peer) (k : nat) :
  peers (self w) !! a = Some p ->
  (forall i, (i < k)%nat -> radio w (sent w + i)%nat = false) ->
  radio w (sent w + k)%nat = true ->
  (k = 0%nat \/ failure_count p + Z.of_nat k < 5) ->
  exists w',
    send_message m a w = (Done tt, w') /\
    failure_count <$> peers (self w') !! a = Some 0 /\
    last (trace w') = Some (EvSend a m true).
Proof.
  intros Hp Hfail Hok Hroom. unfold send_message, send_message_bound. rewrite Hp.
  replace (S (Z.to_nat (4 - failure_count p)))
    with (k + S (Z.to_nat (4 - failure_count p) - k))%nat by lia.
  destruct (send_message_loop_delivers k (Z.to_nat (4 - failure_count p) - k)
              m a w p Hp Hfail Hok Hroom)
    as (w' & evs & Hrun & Hcnt & Htr & _).
  exists w'. split; [exact Hrun|]. split.
  - rewrite Hcnt. reflexivity.
  - rewrite Htr, app_assoc. apply last_snoc.
Qed.

Lemma send_success_resets_failure_count_witness :
  exists w',
    send_message "Hi" node_A (sys_world (paired_node third_time)) = (Done tt, w') /\
    failure_count <$> peers (self w') !! node_A = Some 0 /\
    last (trace w') = Some (EvSend node_A "Hi" true).
Proof.
  apply (send_success_resets_failure_count "Hi" node_A
           (sys_world (paired_node third_time)) (mkPeer node_A 0 0) 2).
  - reflexivity.
  - intros i Hi. destruct i as [|[|i]]; [reflexivity|reflexivity|lia].
  - reflexivity.
  - right. simpl. lia.
Defined.

(** C7.  Called for a peer in [peers] whose counter is not negative,
    [send_message] returns; it has made between one and five [send]
    calls, all to that peer, slept exactly one time unit between any two
    of them, and either the last call was acknowledged and the counter is
    0, or none was and the peer has been handed to [remove_peer] and is
    off the link layer. *)
Theorem send_message_gives_up_after_five
    (m : string) (a : mac) (w : world) (p : Peer) :
  peers (self w) !! a = Some p ->
  0 <= failure_count p ->
  exists w' evs,
    send_message m a w = (Done tt, w') /\
    trace w' = trace w ++ evs /\
    sent w' = (sent w + attempts a evs)%nat /\
    (1 <= attempts a evs <= 5)%nat /\
    pauses None evs = replicate (attempts a evs - 1) 1 /\
    ((last evs = Some (EvSend a m true) /\
      peers (self w') !! a = Some (with_failure_count p 0))
     \/
     (In (EvPrint (MsgRemovingPeer a)) evs /\ delivered evs = false /\
      a ∉ registered (mesh (self w')))).
Proof.
  intros Hp Hnn. unfold send_message, send_message_bound. rewrite Hp.
  destruct (send_message_loop_spec (S (Z.to_nat (4 - failure_count p))) m a w p Hp)
    as (w' & evs & Hrun & Htr & Hsent & Hlo & Hhi & Hpa & Hend); [lia|].
  exists w', evs. split; [exact Hrun|]. split; [exact Htr|].
  split; [exact Hsent|]. split; [lia|]. split; [apply (Hpa None)|exact Hend].
Qed.

Lemma send_message_gives_up_after_five_witness :
  exists w' evs,
    send_message "Hi" node_A (sys_world (paired_node dead_air)) = (Done tt, w') /\
    trace w' = trace (sys_world (paired_node dead_air)) ++ evs /\
    sent w' = (sent (sys_world (paired_node dead_air)) + attempts node_A evs)%nat /\
    (1 <= attempts node_A evs <= 5)%nat /\
    pauses None evs = replicate (attempts node_A evs - 1) 1 /\
    ((last evs = Some (EvSend node_A "Hi" true) /\
      peers (self w') !! node_A = Some (with_failure_count (mkPeer node_A 0 0) 0))
     \/
     (In (EvPrint (MsgRemovingPeer node_A)) evs /\ delivered evs = false /\
      node_A ∉ registered (mesh (self w')))).
Proof.
  apply (send_message_gives_up_after_five "Hi" node_A
           (sys_world (paired_node dead_air)) (mkPeer node_A 0 0));
    [reflexivity|simpl; lia].
Defined.

Lemma beacon_exits_when_joined s :
  beacon_due s ->
  is_in_mesh (self (sys_world s)) = true ->
  sys_beacon (step s Beacon) = BeaconExited.
Proof.
  intros Hdue Hj. destruct s as [w pc]. unfold beacon_due in Hdue. simpl in *.
  destruct pc as [| |wake|]; try contradiction; simpl.
  - unfold beacon_test. coro_unfold. simpl. rewrite Hj. reflexivity.
  - unfold beacon_test. coro_unfold. simpl.
    destruct (Z.leb_spec wake (clock w)); [|lia]. simpl. rewrite Hj. reflexivity.
Qed.

(** C8, as stated, fails on "zero times after joined becomes true".
    The beacon task tests the flag, enters [asend] and is suspended
    there; a frame of [node_A] is handled meanwhile and raises the flag;
    resumed, the task sends the announcement of the call it was in.
    Nothing had been announced before the flag rose, so this one
    announcement comes after it. *)
Lemma beacon_sends_once_after_joined :
  let s0 := started 20 dead_air in
  let s := run_schedule s0 [Beacon; Frame node_A "--hello--"] in
  is_in_mesh (self (sys_world (step s0 Beacon))) = false /\
  is_in_mesh (self (sys_world s)) = true /\
  beacons (trace (sys_world s)) = 0%nat /\
  trace (sys_world (step s Beacon)) =
    trace (sys_world s) ++ [EvSend BROADCAST_ADDR "--hello--" false; EvSleep 1] /\
  beacons (trace (sys_world (step s Beacon))) = 1%nat.
Proof. cbv zeta. split; [|split; [|split; [|split]]]; reflexivity. Qed.

(** C8 (amended).  While the flag is down, the beacon task, resumed as
    soon as it can run, announces [--hello--] to the broadcast address
    once per time unit: [n] turns take [n] units and make [n]
    announcements, one unit of sleep apart.  At the first loop test that
    finds the flag up the task returns.  From the moment the flag is up,
    whatever the tasks do, the only announcement made is the one of the
    [asend] call the task was suspended in, if it was in one: at most
    one, and none when the task was at its loop test, asleep or
    returned.  A task that has returned stays so and silent, evictions
    included. *)
Theorem beacon_broadcasts_until_joined
    (n : nat) (s_out s_seen s_in s_done : system) (sch sch' : list action) :
  beacon_due s_out ->
  is_in_mesh (self (sys_world s_out)) = false ->
  beacon_due s_seen ->
  is_in_mesh (self (sys_world s_seen)) = true ->
  is_in_mesh (self (sys_world s_in)) = true ->
  sys_beacon s_done = BeaconExited ->
  (let s' := run_schedule s_out (beacon_rounds n) in
   clock (sys_world s') = clock (sys_world s_out) + Z.of_nat n /\
   beacon_due s' /\
   exists evs,
     trace (sys_world s') = trace (sys_world s_out) ++ evs /\
     beacons evs = n /\
     pauses None evs = replicate (n - 1) 1) /\
  sys_beacon (step s_seen Beacon) = BeaconExited /\
  (exists evs,
     trace (sys_world (run_schedule s_in sch)) = trace (sys_world s_in) ++ evs /\
     (beacons evs + in_flight (run_schedule s_in sch) = in_flight s_in)%nat /\
     (beacons evs <= 1)%nat /\
     (sys_beacon s_in <> BeaconInSend -> beacons evs = 0%nat)) /\
  (sys_beacon (run_schedule s_done sch') = BeaconExited /\
   exists evs,
     trace (sys_world (run_schedule s_done sch')) = trace (sys_world s_done) ++ evs /\
     beacons evs = 0%nat).
Proof.
  intros Hdue Hout Hseen Hjseen Hin Hdone.
  split; [|split; [|split]].
  - destruct (beacon_rounds_spec n s_out Hdue Hout)
      as (Hdue' & _ & Hclk & evs & Htr & Hb & Hp).
    cbv zeta. split; [exact Hclk|]. split; [exact Hdue'|].
    exists evs. split; [exact Htr|]. split; [exact Hb|].
    rewrite (Hp None). destruct n; simpl; [reflexivity|].
    rewrite Nat.sub_0_r. reflexivity.
  - apply beacon_exits_when_joined; assumption.
  - destruct (joined_run_accounts sch s_in Hin) as (evs & Htr & Hb).
    exists evs. split; [exact Htr|]. split; [exact Hb|].
    unfold in_flight in Hb |- *.
    split.
    + destruct (sys_beacon s_in); lia.
    + intros Hpc. destruct (sys_beacon s_in); try contradiction; lia.
  - apply exited_run, Hdone.
Qed.

Lemma beacon_broadcasts_until_joined_witness :
  let s_out := started 20 dead_air in
  let s_seen := paired_node dead_air in
  let s_in := run_schedule (started 20 dead_air) [Beacon; Frame node_A "--hello--"] in
  let s_done := step (paired_node dead_air) Beacon in
  let sch := [Beacon; Probe node_A; Elapse 5; Beacon; Evict node_A; Beacon] in
  (let s' := run_schedule s_out (beacon_rounds 3) in
   clock (sys_world s') = clock (sys_world s_out) + Z.of_nat 3 /\
   beacon_due s' /\
   exists evs,
     trace (sys_world s') = trace (sys_world s_out) ++ evs /\
     beacons evs = 3%nat /\
     pauses None evs = replicate (3 - 1) 1) /\
  sys_beacon (step s_seen Beacon) = BeaconExited /\
  (exists evs,
     trace (sys_world (run_schedule s_in sch)) = trace (sys_world s_in) ++ evs /\
     (beacons evs + in_flight (run_schedule s_in sch) = in_flight s_in)%nat /\
     (beacons evs <= 1)%nat /\
     (sys_beacon s_in <> BeaconInSend -> beacons evs = 0%nat)) /\
  (sys_beacon (run_schedule s_done sch) = BeaconExited /\
   exists evs,
     trace (sys_world (run_schedule s_done sch)) = trace (sys_world s_done) ++ evs /\
     beacons evs = 0%nat).
Proof.
  cbv zeta.
  apply (beacon_broadcasts_until_joined 3 (started 20 dead_air)
           (paired_node dead_air)
           (run_schedule (started 20 dead_air) [Beacon; Frame node_A "--hello--"])
           (step (paired_node dead_air) Beacon));
    solve [reflexivity | exact I].
Defined.

(** C9 (what the code does at the failing inputs).  [add_peer] asks the
    link layer ([get_peer], line 117), never [peers].  After the
    eviction of C2, [node_A] still has its entry in [peers], counter 5,
    and is no longer registered: [add_peer(node_A)], the call
    [receiver_task] makes at the next frame of [node_A], returns having
    replaced the entry by a new one, counter 0 and [last_seen] the
    current time.  Where [node_A] has its entry and is registered,
    [add_peer(node_A)] changes nothing but does not return either: it
    awaits the tuple [get_peer] handed back.  An address that is in
    neither gets its [Peer], counter 0 and [last_seen] the current
    time. *)
Theorem add_peer_replaces_stale_entry :
  let w := sys_world (run_schedule (started 20 dead_air)
                        [Frame node_A "--hello--"; Probe node_A]) in
  let v := sys_world (run_schedule (started 20 dead_air)
                        [Frame node_A "--hello--"; Elapse 3]) in
  (peers (self w) !! node_A = Some (mkPeer node_A 5 0) /\
   (node_A ∉ registered (mesh (self w))) /\
   clock w = 4 /\
   (add_peer node_A w).1 = Done tt /\
   peers (self (add_peer node_A w).2) !! node_A = Some (mkPeer node_A 0 4) /\
   peers (self (receiver_body node_A "--hello--" w).2) !! node_A
     = Some (mkPeer node_A 0 4)) /\
  (peers (self v) !! node_A = Some (mkPeer node_A 0 0) /\
   node_A ∈ registered (mesh (self v)) /\
   add_peer node_A v = (Stall, v)) /\
  (peers (self v) !! node 1 = None /\
   (node 1 ∉ registered (mesh (self v))) /\
   clock v = 3 /\
   (add_peer (node 1) v).1 = Done tt /\
   peers (self (add_peer (node 1) v).2) !! node 1 = Some (mkPeer (node 1) 0 3) /\
   peers (self (add_peer (node 1) v).2) !! node_A = Some (mkPeer node_A 0 0)).
Proof.
  cbv zeta. split; [|split].
  - split; [reflexivity|]. split; [|repeat split; reflexivity].
    apply (bool_decide_eq_false_1 _). vm_compute. reflexivity.
  - split; [reflexivity|]. split; [|reflexivity].
    apply (bool_decide_eq_true_1 _). vm_compute. reflexivity.
  - split; [reflexivity|]. split; [|repeat split; reflexivity].
    apply (bool_decide_eq_false_1 _). vm_compute. reflexivity.
Qed.

(** What [add_peer] does to an entry whose link [remove_peer] has taken
    away: the sender is heard again, and the counter left at 5 is back
    at 0. *)
Lemma evicted_peer_heard_again :
  let s := run_schedule (paired_node dead_air)
             [Probe node_A; Frame node_A "--hello--"] in
  peers (self (sys_world (step (paired_node dead_air) (Probe node_A)))) !! node_A
    = Some (mkPeer node_A 5 0) /\
  peers (self (sys_world s)) !! node_A = Some (mkPeer node_A 0 4).
Proof. cbv zeta. split; reflexivity. Qed.

(** C10.  Once the flag is up it is up after every further action of the
    node: frames, probes, beacon turns, and the eviction of any peer. *)
Theorem joined_is_permanent (s : system) (sch : list action) :
  is_in_mesh (self (sys_world s)) = true ->
  is_in_mesh (self (sys_world (run_schedule s sch))) = true.
Proof. apply joined_run_schedule. Qed.

Lemma joined_is_permanent_witness :
  is_in_mesh (self (sys_world (paired_node dead_air))) = true /\
  let after := run_schedule (paired_node dead_air)
                 [Probe node_A; Evict node_A; EvictAll; Notify; Beacon] in
  peers (self (sys_world after)) !! node_A = Some (mkPeer node_A 5 0) /\
  registered (mesh (self (sys_world after))) = [BROADCAST_ADDR] /\
  is_in_mesh (self (sys_world after)) = true.
Proof.
  split; [reflexivity|]. cbv zeta. split; [reflexivity|]. split; [reflexivity|].
  apply (joined_is_permanent (paired_node dead_air)
           [Probe node_A; Evict node_A; EvictAll; Notify; Beacon]).
  reflexivity.
Defined.

(** * Further properties of the code *)

(** ** [remove_peer], [remove_all_peers], [add_peer] *)

Lemma filter_without (a : mac) (l : list mac) :
  a ∉ l -> filter (fun b => b ≠ a) l = l.
Proof.
  induction l as [|b l IH]; intros Hout; [reflexivity|].
  apply not_elem_of_cons in Hout as [Hne Hout].
  rewrite filter_cons_True by congruence. rewrite IH by exact Hout. reflexivity.
Qed.

Lemma remove_peer_effect (a : mac) (w : world) :
  exists w',
    remove_peer a w = (Done tt, w') /\
    peers (self w') = peers (self w) /\
    is_in_mesh (self w') = is_in_mesh (self w) /\
    registered (mesh (self w')) = filter (fun b => b ≠ a) (registered (mesh (self w))) /\
    trace w' = trace w ++
      [EvPrint (MsgFailedToRemove
                  (if bool_decide (a ∈ registered (mesh (self w)))
                   then TypeError else OSError ESP_ERR_ESPNOW_NOT_FOUND))].
Proof.
  destruct (decide (a ∈ registered (mesh (self w)))) as [Hin|Hout].
  - rewrite (remove_peer_registered _ _ Hin), bool_decide_eq_true_2 by exact Hin.
    eexists. split; [reflexivity|]. simpl. auto.
  - rewrite (remove_peer_unregistered _ _ Hout), bool_decide_eq_false_2 by exact Hout.
    eexists. split; [reflexivity|]. simpl.
    rewrite (filter_without _ _ Hout). auto.
Qed.

(** X1.  [remove_peer] always returns and reports one failure.  It takes
    the address off the link-layer list and nothing else off it, and it
    leaves [peers] and the joined flag as they were: the failure it
    reports is the [TypeError] of the [await] when the address was
    registered, the link layer's [OSError] when it was not. *)
Theorem remove_peer_never_deletes (a : mac) (w : world) :
  exists w',
    remove_peer a w = (Done tt, w') /\
    peers (self w') = peers (self w) /\
    is_in_mesh (self w') = is_in_mesh (self w) /\
    registered (mesh (self w')) = filter (fun b => b ≠ a) (registered (mesh (self w))) /\
    trace w' = trace w ++
      [EvPrint (MsgFailedToRemove
                  (if bool_decide (a ∈ registered (mesh (self w)))
                   then TypeError else OSError ESP_ERR_ESPNOW_NOT_FOUND))].
Proof. apply remove_peer_effect. Qed.

(** X2.  On a node run by its three tasks since [start()],
    [remove_all_peers] removes nobody: the link-layer list is not empty
    (the broadcast address is on it), the first item has no [mac]
    attribute, and the [AttributeError] leaves the coroutine with the
    [Mesh] object untouched. *)
Theorem remove_all_peers_removes_nobody
    (cap : nat) (air : nat -> bool) (sch : list action) :
  (0 < cap)%nat ->
  forallb task_action sch = true ->
  let here := sys_world (run_schedule (started cap air) sch) in
  remove_all_peers here = (Raise AttributeError, here).
Proof.
  intros Hcap Hsch. cbv zeta.
  pose proof (guarded_run sch (started cap air) Hsch
                (started_broadcast_unknown cap air Hcap)) as [Hreg _].
  unfold remove_all_peers, mesh_get_peers, get_self, ret, bind, raise.
  destruct (registered (mesh (self (sys_world (run_schedule (started cap air) sch)))))
    as [|b l]; [|reflexivity].
  apply elem_of_nil in Hreg. contradiction.
Qed.

Lemma remove_all_peers_removes_nobody_witness :
  let here := sys_world (run_schedule (started 20 dead_air)
                           [Frame node_A "--hello--"; Beacon; Elapse 1]) in
  remove_all_peers here = (Raise AttributeError, here).
Proof.
  apply (remove_all_peers_removes_nobody 20 dead_air
           [Frame node_A "--hello--"; Beacon; Elapse 1]); [lia|reflexivity].
Defined.

(** X3.  No exception leaves [add_peer].  The link-layer list grows by
    the address exactly when the link layer accepts it; otherwise the
    address was registered already, or the refusal has been printed. *)
Theorem add_peer_contains_its_failures (a : mac) (w : world) :
  let r := add_peer a w in
  (forall e, r.1 <> Raise e) /\
  r.1 <> Fuel /\
  registered (mesh (self r.2)) =
    (if bool_decide (a ∈ registered (mesh (self w))) then registered (mesh (self w))
     else if (capacity (mesh (self w)) <=? length (registered (mesh (self w))))%nat
          then registered (mesh (self w))
     else registered (mesh (self w)) ++ [a]) /\
  (a ∈ registered (mesh (self r.2)) \/
   last (trace r.2) = Some (EvPrint (MsgFailedToAdd (OSError ESP_ERR_ESPNOW_FULL)))).
Proof.
  cbv zeta. destruct (decide (a ∈ registered (mesh (self w)))) as [Hin|Hout].
  - rewrite bool_decide_eq_true_2 by exact Hin.
    rewrite (add_peer_registered _ _ Hin). simpl.
    split; [discriminate|]. split; [discriminate|]. split; [reflexivity|].
    left. exact Hin.
  - rewrite bool_decide_eq_false_2 by exact Hout.
    destruct (Nat.leb_spec (capacity (mesh (self w)))
                           (length (registered (mesh (self w))))) as [Hfull|Hroom].
    + rewrite (add_peer_full _ _ Hout Hfull). simpl.
      split; [discriminate|]. split; [discriminate|]. split; [reflexivity|].
      right. apply last_snoc.
    + rewrite (add_peer_fresh _ _ Hout Hroom). simpl.
      split; [discriminate|]. split; [discriminate|]. split; [reflexivity|].
      left. apply elem_of_app. right. apply list_elem_of_singleton. reflexivity.
Qed.

(** ** [receiver_task] *)

Lemma receiver_body_returns a payload w :
  utf8_check 0 payload = true ->
  (receiver_body a payload w).1 = Done tt.
Proof.
  intros Hok. destruct (decide (a ∈ registered (mesh (self w)))) as [Hin|Hout].
  - rewrite (receiver_body_known _ _ _ Hok Hin). reflexivity.
  - destruct (le_lt_dec (capacity (mesh (self w)))
                        (length (registered (mesh (self w))))) as [Hfull|Hroom].
    + rewrite (receiver_body_refused _ _ _ Hok Hout Hfull). reflexivity.
    + rewrite (receiver_body_accepted _ _ _ Hok Hout Hroom). reflexivity.
Qed.

Lemma receiver_task_cons a payload rest w :
  receiver_task ((a, payload) :: rest) w =
    match receiver_body a payload w with
    | (Done _, w1) => receiver_task rest w1
    | (Raise e, w1) => (Raise e, w1)
    | (Stall, w1) => (Stall, w1)
    | (Fuel, w1) => (Fuel, w1)
    end.
Proof. reflexivity. Qed.

(** X4.  [receiver_task] handles every frame whose payload decodes and
    ends at the first one that does not: the [UnicodeError] of
    [message.decode()] leaves the task before that frame has changed
    anything, and the frames behind it are not looked at. *)
Theorem receiver_task_ends_at_undecodable_frame
    (good : list (mac * string)) (sender_mac : mac) (payload : string)
    (rest : list (mac * string)) (w : world) :
  Forall (fun f => utf8_check 0 f.2 = true) good ->
  utf8_check 0 payload = false ->
  (receiver_task good w).1 = Done tt /\
  receiver_task (good ++ (sender_mac, payload) :: rest) w =
    (Raise UnicodeError, (receiver_task good w).2).
Proof.
  intros Hgood Hbad. revert w.
  induction Hgood as [|[a pl] good Hok _ IH]; intros w.
  - simpl app. rewrite receiver_task_cons.
    rewrite (receiver_body_undecodable _ _ _ Hbad). split; reflexivity.
  - simpl app. rewrite !receiver_task_cons.
    pose proof (receiver_body_returns a pl w Hok) as Hret.
    destruct (receiver_body a pl w) as [[[]| | |] w1]; try discriminate.
    apply IH.
Qed.

Lemma receiver_task_ends_at_undecodable_frame_witness :
  let w := sys_world (started 20 dead_air) in
  let noise := String (Ascii.ascii_of_N 255) "" in
  (receiver_task [(node_A, "--hello--")] w).1 = Done tt /\
  receiver_task ([(node_A, "--hello--")] ++ (node 1, noise) :: [(node 2, "--hello--")]) w =
    (Raise UnicodeError, (receiver_task [(node_A, "--hello--")] w).2).
Proof.
  cbv zeta.
  apply (receiver_task_ends_at_undecodable_frame
           [(node_A, "--hello--")] (node 1) (String (Ascii.ascii_of_N 255) "")
           [(node 2, "--hello--")] (sys_world (started 20 dead_air))).
  - repeat constructor.
  - reflexivity.
Defined.

(** X5.  A sender the link layer accepts gets, at its first frame, an
    entry with a clean counter and the time of that frame; a second frame
    from it leaves the [Mesh] object exactly as the first one left it. *)
Theorem repeated_frame_changes_nothing
    (a : mac) (payload payload' : string) (w : world) :
  utf8_check 0 payload = true ->
  utf8_check 0 payload' = true ->
  a ∉ registered (mesh (self w)) ->
  (length (registered (mesh (self w))) < capacity (mesh (self w)))%nat ->
  let w1 := (receiver_body a payload w).2 in
  let w2 := (receiver_body a payload' w1).2 in
  peers (self w1) !! a = Some (mkPeer a 0 (clock w)) /\
  a ∈ registered (mesh (self w1)) /\
  is_in_mesh (self w1) = true /\
  self w2 = self w1.
Proof.
  intros Hok Hok' Hout Hroom. cbv zeta.
  rewrite (receiver_body_accepted _ _ _ Hok Hout Hroom). simpl.
  split; [apply lookup_insert_eq|].
  assert (Hin : a ∈ registered (mesh (self w)) ++ [a]).
  { apply elem_of_app. right. apply list_elem_of_singleton. reflexivity. }
  split; [exact Hin|]. split; [reflexivity|].
  rewrite receiver_body_known; [reflexivity|exact Hok'|exact Hin].
Qed.

Lemma repeated_frame_changes_nothing_witness :
  let w := sys_world (started 20 dead_air) in
  let w1 := (receiver_body node_A "--hello--" w).2 in
  let w2 := (receiver_body node_A "Hi" w1).2 in
  peers (self w1) !! node_A = Some (mkPeer node_A 0 (clock w)) /\
  node_A ∈ registered (mesh (self w1)) /\
  is_in_mesh (self w1) = true /\
  self w2 = self w1.
Proof.
  cbv zeta.
  apply (repeated_frame_changes_nothing node_A "--hello--" "Hi"
           (sys_world (started 20 dead_air))); try reflexivity.
  - vm_compute. intros H. apply list_elem_of_singleton in H. discriminate.
  - vm_compute. lia.
Defined.

(** ** What [send_message] leaves alone *)

#[local] Instance others_untouched_preorder a : PreOrder (others_untouched a).
Proof.
  split.
  - intros w b Hb. split; reflexivity.
  - intros x y z Hxy Hyz b Hb.
    destruct (Hxy b Hb) as [Hp1 Hr1]. destruct (Hyz b Hb) as [Hp2 Hr2].
    split; [congruence|]. rewrite Hr2. exact Hr1.
Qed.

Lemma others_same_self a {A} (m : M A) :
  (forall w, self (m w).2 = self w) -> keeps (others_untouched a) m.
Proof. intros H w b Hb. rewrite H. split; reflexivity. Qed.

Lemma others_emit a e : keeps (others_untouched a) (emit e).
Proof. apply others_same_self. reflexivity. Qed.

Lemma others_sleep a d : keeps (others_untouched a) (sleep d).
Proof. apply others_same_self. reflexivity. Qed.

Lemma others_mesh_asend a b data : keeps (others_untouched a) (mesh_asend b data).
Proof. apply others_same_self. reflexivity. Qed.

Lemma others_peers_setitem a p : keeps (others_untouched a) (peers_setitem a p).
Proof.
  intros w b Hb. simpl. split; [|reflexivity].
  apply lookup_insert_ne. congruence.
Qed.

Lemma others_remove_peer a : keeps (others_untouched a) (remove_peer a).
Proof.
  intros w b Hb.
  destruct (remove_peer_effect a w) as (w' & -> & Hp & _ & Hr & _).
  simpl. rewrite Hp, Hr. split; [reflexivity|].
  rewrite list_elem_of_filter. tauto.
Qed.

#[local] Hint Resolve others_emit others_sleep others_mesh_asend
  others_peers_setitem others_remove_peer : coro.

Lemma others_send_message_loop n m a :
  keeps (others_untouched a) (send_message_loop n m a).
Proof.
  induction n as [|n IH]; simpl; [auto with coro typeclass_instances|].
  unfold set_failure_count, peers_getitem, print.
  keeps_walk.
Qed.

#[local] Instance same_flag_preorder : PreOrder same_flag.
Proof. split; unfold same_flag; [intros w; reflexivity|intros a b c; congruence]. Qed.

Lemma flag_same_self {A} (m : M A) :
  (forall w, is_in_mesh (self (m w).2) = is_in_mesh (self w)) -> keeps same_flag m.
Proof. intros H w. apply H. Qed.

Lemma flag_set_registered l : keeps same_flag (set_registered l).
Proof. apply flag_same_self. reflexivity. Qed.

Lemma flag_mesh_active b : keeps same_flag (mesh_active b).
Proof. apply flag_same_self. reflexivity. Qed.

Lemma flag_set_peers d : keeps same_flag (set_peers d).
Proof. apply flag_same_self. reflexivity. Qed.

Lemma flag_emit e : keeps same_flag (emit e).
Proof. apply flag_same_self. reflexivity. Qed.

Lemma flag_sleep d : keeps same_flag (sleep d).
Proof. apply flag_same_self. reflexivity. Qed.

Lemma flag_elapse d : keeps same_flag (elapse d).
Proof. apply flag_same_self. reflexivity. Qed.

Lemma flag_mesh_asend a data : keeps same_flag (mesh_asend a data).
Proof. apply flag_same_self. reflexivity. Qed.

#[local] Hint Resolve flag_set_registered flag_mesh_active flag_set_peers
  flag_emit flag_sleep flag_elapse flag_mesh_asend : coro.

Lemma flag_add_peer a : keeps same_flag (add_peer a).
Proof.
  unfold add_peer, mesh_get_peer, mesh_add_peer, peers_setitem, print.
  keeps_walk.
Qed.

Lemma flag_remove_peer a : keeps same_flag (remove_peer a).
Proof.
  unfold remove_peer, mesh_del_peer, peers_delitem, print.
  keeps_walk.
Qed.
#[local] Hint Resolve flag_add_peer flag_remove_peer : coro.

Lemma flag_send_message_loop n m a : keeps same_flag (send_message_loop n m a).
Proof.
  induction n as [|n IH]; simpl; [auto with coro typeclass_instances|].
  unfold set_failure_count, peers_getitem, peers_setitem, print.
  keeps_walk.
Qed.

Lemma flag_send_message m a : keeps same_flag (send_message m a).
Proof. intros w. apply flag_send_message_loop. Qed.
#[local] Hint Resolve flag_send_message : coro.

Lemma flag_notify_each l : keeps same_flag (notify_each l).
Proof. induction l as [|a l IH]; simpl; unfold print; keeps_walk. Qed.
#[local] Hint Resolve flag_notify_each : coro.

Lemma flag_notify_cycle : keeps same_flag notify_cycle.
Proof. unfold notify_cycle, mesh_get_peers. keeps_walk. Qed.

Lemma flag_remove_all_peers : keeps same_flag remove_all_peers.
Proof. unfold remove_all_peers, mesh_get_peers. keeps_walk. Qed.

Lemma flag_beacon_resume pc : keeps same_flag (beacon_resume pc).
Proof. unfold beacon_resume, beacon_test, broadcast, print. keeps_walk. Qed.

(** X6.  A call of [send_message] for one address changes nothing about
    any other: their entries in [peers] and their link-layer
    registrations are what they were, and so is the joined flag. *)
Theorem send_message_touches_one_peer (m : string) (a b : mac) (w : world) :
  b ≠ a ->
  let w' := (send_message m a w).2 in
  peers (self w') !! b = peers (self w) !! b /\
  (b ∈ registered (mesh (self w')) <-> b ∈ registered (mesh (self w))) /\
  is_in_mesh (self w') = is_in_mesh (self w).
Proof.
  intros Hb. cbv zeta.
  destruct (others_send_message_loop (send_message_bound (self w) a) m a w b Hb)
    as [Hp Hr].
  split; [exact Hp|]. split; [exact Hr|].
  apply flag_send_message.
Qed.

Lemma send_message_touches_one_peer_witness :
  let w := sys_world (run_schedule (started 20 dead_air)
                        [Frame node_A "--hello--"; Frame (node 1) "--hello--"]) in
  let w' := (send_message "Hi" node_A w).2 in
  peers (self w') !! node 1 = peers (self w) !! node 1 /\
  (node 1 ∈ registered (mesh (self w')) <-> node 1 ∈ registered (mesh (self w))) /\
  is_in_mesh (self w') = is_in_mesh (self w).
Proof.
  cbv zeta.
  apply (send_message_touches_one_peer "Hi" node_A (node 1)).
  discriminate.
Defined.

(** X7.  Only a frame raises the joined flag: a turn of the beacon task,
    a cycle of [notify_task], a probe, [add_peer], [remove_peer],
    [remove_all_peers] and the passing of time all leave it as it is. *)
Theorem only_frames_set_joined (s : system) (a : action) :
  (forall sender_mac payload, a <> Frame sender_mac payload) ->
  is_in_mesh (self (sys_world (step s a))) = is_in_mesh (self (sys_world s)).
Proof.
  intros Ha. destruct a as [|sender_mac payload| |a|a|a| |d].
  - rewrite beacon_step_world. apply flag_beacon_resume.
  - destruct (Ha sender_mac payload). reflexivity.
  - apply flag_notify_cycle.
  - apply flag_send_message.
  - apply flag_add_peer.
  - apply flag_remove_peer.
  - apply flag_remove_all_peers.
  - apply flag_elapse.
Qed.

Lemma only_frames_set_joined_witness :
  is_in_mesh (self (sys_world (step (started 20 dead_air) (AddPeer node_A)))) =
  is_in_mesh (self (sys_world (started 20 dead_air))).
Proof.
  apply (only_frames_set_joined (started 20 dead_air) (AddPeer node_A)).
  intros sender_mac payload. discriminate.
Defined.

(** ** Counters and keys of [peers] *)

Lemma clearing_same_self {A} (m : M A) :
  (forall w, self (m w).2 = self w) -> keeps clearing m.
Proof. intros H w Hc. rewrite H. exact Hc. Qed.

Lemma clearing_emit e : keeps clearing (emit e).
Proof. apply clearing_same_self. reflexivity. Qed.

Lemma clearing_sleep d : keeps clearing (sleep d).
Proof. apply clearing_same_self. reflexivity. Qed.

Lemma clearing_elapse d : keeps clearing (elapse d).
Proof. apply clearing_same_self. reflexivity. Qed.

Lemma clearing_mesh_asend a data : keeps clearing (mesh_asend a data).
Proof. apply clearing_same_self. reflexivity. Qed.

Lemma clearing_set_is_in_mesh b : keeps clearing (set_is_in_mesh b).
Proof. intros w Hc. exact Hc. Qed.

#[local] Instance clearing_preorder : PreOrder clearing.
Proof. split; unfold clearing; [intros w; auto|intros a b c; auto]. Qed.

Lemma clearing_remove_peer a : keeps clearing (remove_peer a).
Proof.
  intros w Hc b q Hb Hq.
  destruct (remove_peer_effect a w) as (w' & Hrun & Hp & _ & Hr & _).
  rewrite Hrun in *. simpl in *. rewrite Hp in Hq. rewrite Hr in Hb.
  apply list_elem_of_filter in Hb as [_ Hb]. exact (Hc b q Hb Hq).
Qed.

Lemma clearing_add_peer a : keeps clearing (add_peer a).
Proof.
  intros w Hc. destruct (decide (a ∈ registered (mesh (self w)))) as [Hin|Hout].
  - rewrite (add_peer_registered _ _ Hin). exact Hc.
  - destruct (le_lt_dec (capacity (mesh (self w)))
                        (length (registered (mesh (self w))))) as [Hfull|Hroom].
    + rewrite (add_peer_full _ _ Hout Hfull). exact Hc.
    + rewrite (add_peer_fresh _ _ Hout Hroom).
      intros b q Hb Hq. simpl in *. destruct (decide (a = b)) as [->|Hab].
      * rewrite lookup_insert_eq in Hq. injection Hq as <-. reflexivity.
      * rewrite lookup_insert_ne in Hq by exact Hab. apply (Hc b q); [|exact Hq].
        apply elem_of_app in Hb as [Hb|Hb]; [exact Hb|].
        apply list_elem_of_singleton in Hb. congruence.
Qed.

Lemma clearing_send_message m a : keeps clearing (send_message m a).
Proof.
  intros w Hc b q Hb Hq. destruct (decide (b = a)) as [->|Hne].
  - destruct (peers (self w) !! a) as [p|] eqn:Hp.
    + unfold send_message, send_message_bound in *. rewrite Hp in *.
      destruct (send_message_loop_spec (S (Z.to_nat (4 - failure_count p))) m a w p Hp)
        as (w' & evs & Hrun & _ & _ & _ & _ & _ & Hend); [lia|].
      rewrite Hrun in *. simpl in *.
      destruct Hend as [[_ Hcnt]|(_ & _ & Hgone)]; [|contradiction].
      rewrite Hcnt in Hq. injection Hq as <-. reflexivity.
    + rewrite (send_message_unknown _ _ _ Hp) in *. simpl in *. exact (Hc a q Hb Hq).
  - destruct (others_send_message_loop (send_message_bound (self w) a) m a w b Hne)
      as [Hp Hr].
    unfold send_message in *. rewrite Hp in Hq. rewrite Hr in Hb. exact (Hc b q Hb Hq).
Qed.

#[local] Hint Resolve clearing_emit clearing_sleep clearing_elapse
  clearing_mesh_asend clearing_set_is_in_mesh clearing_remove_peer
  clearing_add_peer clearing_send_message : coro.

Lemma clearing_notify_each l : keeps clearing (notify_each l).
Proof. induction l as [|a l IH]; simpl; unfold print; keeps_walk. Qed.
#[local] Hint Resolve clearing_notify_each : coro.

Lemma clearing_notify_cycle : keeps clearing notify_cycle.
Proof. unfold notify_cycle, mesh_get_peers. keeps_walk. Qed.

Lemma clearing_receiver_body a payload : keeps clearing (receiver_body a payload).
Proof. unfold receiver_body, mesh_get_peer, print. keeps_walk. Qed.

Lemma clearing_remove_all_peers : keeps clearing remove_all_peers.
Proof. unfold remove_all_peers, mesh_get_peers. keeps_walk. Qed.

Lemma clearing_beacon_resume pc : keeps clearing (beacon_resume pc).
Proof. unfold beacon_resume, beacon_test, broadcast, print. keeps_walk. Qed.

Lemma clearing_step s a :
  counters_clear (self (sys_world s)) ->
  counters_clear (self (sys_world (step s a))).
Proof.
  destruct a as [|sender_mac payload| |a|a|a| |d].
  - rewrite beacon_step_world. apply clearing_beacon_resume.
  - apply clearing_receiver_body.
  - apply clearing_notify_cycle.
  - apply clearing_send_message.
  - apply clearing_add_peer.
  - apply clearing_remove_peer.
  - apply clearing_remove_all_peers.
  - apply clearing_elapse.
Qed.

Lemma clearing_run sch : forall s,
  counters_clear (self (sys_world s)) ->
  counters_clear (self (sys_world (run_schedule s sch))).
Proof.
  induction sch as [|a sch IH]; intros s Hc; simpl; [exact Hc|].
  apply IH, clearing_step, Hc.
Qed.

Lemma started_counters_clear cap air :
  counters_clear (self (sys_world (started cap air))).
Proof.
  assert (Hempty : peers (self (sys_world (started cap air))) = ∅).
  { unfold started, start_radio, boot. coro_unfold. simpl.
    destruct cap as [|cap]; reflexivity. }
  intros a p _ Hp. rewrite Hempty, lookup_empty in Hp. discriminate.
Qed.

(** X8.  Between two calls of [send_message] no failure count is pending
    on a peer the link layer knows: whatever the node has done since
    [start()], each registered peer that has an entry has
    [failure_count = 0].  A call ends by clearing the counter or by
    unregistering the peer; a count above 0 belongs to an evicted one. *)
Theorem registered_peers_have_clean_counters
    (cap : nat) (air : nat -> bool) (sch : list action) (a : mac) (p : Peer) :
  let here := self (sys_world (run_schedule (started cap air) sch)) in
  a ∈ registered (mesh here) ->
  peers here !! a = Some p ->
  failure_count p = 0.
Proof.
  cbv zeta. apply (clearing_run sch (started cap air)), started_counters_clear.
Qed.

Lemma registered_peers_have_clean_counters_witness :
  let here := self (sys_world (run_schedule (started 20 third_time)
                      [Frame node_A "--hello--"; Probe node_A; Beacon])) in
  node_A ∈ registered (mesh here) /\
  peers here !! node_A = Some (mkPeer node_A 0 0) /\
  failure_count (mkPeer node_A 0 0) = 0.
Proof.
  cbv zeta.
  assert (Hin : node_A ∈ registered (mesh (self (sys_world (run_schedule
                  (started 20 third_time)
                  [Frame node_A "--hello--"; Probe node_A; Beacon]))))).
  { vm_compute. apply list_elem_of_In. right. left. reflexivity. }
  split; [exact Hin|]. split; [reflexivity|].
  apply (registered_peers_have_clean_counters 20 third_time
           [Frame node_A "--hello--"; Probe node_A; Beacon] node_A (mkPeer node_A 0 0));
    [exact Hin|reflexivity].
Defined.

#[local] Instance keying_preorder : PreOrder keying.
Proof. split; unfold keying; [intros w; auto|intros a b c; auto]. Qed.

Lemma keying_same_peers {A} (m : M A) :
  (forall w, peers (self (m w).2) = peers (self w)) -> keeps keying m.
Proof. intros H w Hk a p Hp. rewrite H in Hp. exact (Hk a p Hp). Qed.

Lemma keying_emit e : keeps keying (emit e).
Proof. apply keying_same_peers. reflexivity. Qed.

Lemma keying_sleep d : keeps keying (sleep d).
Proof. apply keying_same_peers. reflexivity. Qed.

Lemma keying_elapse d : keeps keying (elapse d).
Proof. apply keying_same_peers. reflexivity. Qed.

Lemma keying_mesh_asend a data : keeps keying (mesh_asend a data).
Proof. apply keying_same_peers. reflexivity. Qed.

Lemma keying_set_is_in_mesh b : keeps keying (set_is_in_mesh b).
Proof. apply keying_same_peers. reflexivity. Qed.

Lemma keying_set_registered l : keeps keying (set_registered l).
Proof. apply keying_same_peers. reflexivity. Qed.

Lemma keying_mesh_active b : keeps keying (mesh_active b).
Proof. apply keying_same_peers. reflexivity. Qed.

Lemma keying_peers_setitem a p :
  mac_address p = a -> keeps keying (peers_setitem a p).
Proof.
  intros Hm w Hk b q Hq. simpl in Hq. destruct (decide (a = b)) as [->|Hab].
  - rewrite lookup_insert_eq in Hq. injection Hq as <-. exact Hm.
  - rewrite lookup_insert_ne in Hq by exact Hab. exact (Hk b q Hq).
Qed.

Lemma keying_peers_delitem a : keeps keying (peers_delitem a).
Proof.
  intros w Hk. unfold peers_delitem. coro_unfold. simpl.
  destruct (peers (self w) !! a); simpl; [|exact Hk].
  intros b q Hq. simpl in Hq. apply lookup_delete_Some in Hq as [_ Hq].
  exact (Hk b q Hq).
Qed.

(** What [self.peers[a]] hands back sits under [a]. *)
Lemma keying_getitem_bind {B} a (k : Peer -> M B) :
  (forall p, mac_address p = a -> keeps keying (k p)) ->
  keeps keying (bind (peers_getitem a) k).
Proof.
  intros Hk w Hkeyed. unfold peers_getitem, get_self, ret, raise, bind. simpl.
  destruct (peers (self w) !! a) as [p|] eqn:Hp; simpl; [|exact Hkeyed].
  specialize (Hk p (Hkeyed a p Hp) w Hkeyed).
  destruct (k p w) as [[b| | |] w1]; exact Hk.
Qed.

#[local] Hint Resolve keying_emit keying_sleep keying_elapse keying_mesh_asend
  keying_set_is_in_mesh keying_set_registered keying_mesh_active
  keying_peers_delitem : coro.
#[local] Hint Extern 1 (keeps keying (peers_setitem _ _)) =>
  apply keying_peers_setitem; solve [reflexivity | assumption] : coro.

Lemma keying_add_peer a : keeps keying (add_peer a).
Proof. unfold add_peer, mesh_get_peer, mesh_add_peer, print. keeps_walk. Qed.

Lemma keying_remove_peer a : keeps keying (remove_peer a).
Proof. unfold remove_peer, mesh_del_peer, print. keeps_walk. Qed.
#[local] Hint Resolve keying_add_peer keying_remove_peer : coro.

Lemma keying_send_message_loop n m a : keeps keying (send_message_loop n m a).
Proof.
  induction n as [|n IH]; simpl; [auto with coro typeclass_instances|].
  unfold set_failure_count, print.
  apply keeps_bind; [apply _|auto with coro|intros ok]. destruct ok.
  - apply keying_getitem_bind. intros p Hp. auto with coro.
  - apply keying_getitem_bind. intros p Hp.
    apply keeps_bind; [apply _|auto with coro|intros _].
    apply keying_getitem_bind. intros p1 Hp1.
    apply keeps_bind; [apply _|auto with coro|intros _].
    apply keying_getitem_bind. intros p2 Hp2.
    keeps_walk.
Qed.

Lemma keying_send_message m a : keeps keying (send_message m a).
Proof. intros w. apply keying_send_message_loop. Qed.
#[local] Hint Resolve keying_send_message : coro.

Lemma keying_notify_each l : keeps keying (notify_each l).
Proof. induction l as [|a l IH]; simpl; unfold print; keeps_walk. Qed.
#[local] Hint Resolve keying_notify_each : coro.

Lemma keying_notify_cycle : keeps keying notify_cycle.
Proof. unfold notify_cycle, mesh_get_peers. keeps_walk. Qed.

Lemma keying_receiver_body a payload : keeps keying (receiver_body a payload).
Proof. unfold receiver_body, mesh_get_peer, print. keeps_walk. Qed.

Lemma keying_remove_all_peers : keeps keying remove_all_peers.
Proof. unfold remove_all_peers, mesh_get_peers. keeps_walk. Qed.

Lemma keying_beacon_resume pc : keeps keying (beacon_resume pc).
Proof. unfold beacon_resume, beacon_test, broadcast, print. keeps_walk. Qed.

Lemma keying_step s a :
  keyed (self (sys_world s)) -> keyed (self (sys_world (step s a))).
Proof.
  destruct a as [|sender_mac payload| |a|a|a| |d].
  - rewrite beacon_step_world. apply keying_beacon_resume.
  - apply keying_receiver_body.
  - apply keying_notify_cycle.
  - apply keying_send_message.
  - apply keying_add_peer.
  - apply keying_remove_peer.
  - apply keying_remove_all_peers.
  - apply keying_elapse.
Qed.

Lemma keying_run sch : forall s,
  keyed (self (sys_world s)) -> keyed (self (sys_world (run_schedule s sch))).
Proof.
  induction sch as [|a sch IH]; intros s Hk; simpl; [exact Hk|].
  apply IH, keying_step, Hk.
Qed.

Lemma started_keyed cap air : keyed (self (sys_world (started cap air))).
Proof.
  assert (Hempty : peers (self (sys_world (started cap air))) = ∅).
  { unfold started, start_radio, boot. coro_unfold. simpl.
    destruct cap as [|cap]; reflexivity. }
  intros a p Hp. rewrite Hempty, lookup_empty in Hp. discriminate.
Qed.

(** X9.  Whatever the node has done since [start()], an entry of [peers]
    records the address it is stored under: probes, evictions and
    re-registrations never file a [Peer] under another key. *)
Theorem peers_entries_match_their_key
    (cap : nat) (air : nat -> bool) (sch : list action) (a : mac) (p : Peer) :
  peers (self (sys_world (run_schedule (started cap air) sch))) !! a = Some p ->
  mac_address p = a.
Proof. apply (keying_run sch (started cap air)), started_keyed. Qed.

Lemma peers_entries_match_their_key_witness :
  peers (self (sys_world (run_schedule (started 20 dead_air)
          [Frame node_A "--hello--"; Probe node_A; Frame node_A "Hi"]))) !! node_A
    = Some (mkPeer node_A 0 4) /\
  mac_address (mkPeer node_A 0 4) = node_A.
Proof.
  split; [reflexivity|].
  apply (peers_entries_match_their_key 20 dead_air
           [Frame node_A "--hello--"; Probe node_A; Frame node_A "Hi"]
           node_A (mkPeer node_A 0 4)).
  reflexivity.
Defined.

(** ** Tasks working together *)

Lemma receiver_body_unknown_effect a payload w :
  utf8_check 0 payload = true ->
  a ∉ registered (mesh (self w)) ->
  is_in_mesh (self (receiver_body a payload w).2) = true /\
  clock (receiver_body a payload w).2 = clock w /\
  exists evs,
    trace (receiver_body a payload w).2 = trace w ++ evs /\ beacons evs = 0%nat.
Proof.
  intros Hok Hout.
  destruct (le_lt_dec (capacity (mesh (self w)))
                      (length (registered (mesh (self w))))) as [Hfull|Hroom].
  - rewrite (receiver_body_refused _ _ _ Hok Hout Hfull). simpl.
    split; [reflexivity|]. split; [reflexivity|]. eexists. split; reflexivity.
  - rewrite (receiver_body_accepted _ _ _ Hok Hout Hroom). simpl.
    split; [reflexivity|]. split; [reflexivity|]. eexists. split; reflexivity.
Qed.

(** With the flag up, the beacon task brought back to its loop test
    returns. *)
Lemma wind_down_exits s :
  is_in_mesh (self (sys_world s)) = true ->
  sys_beacon (run_schedule s (wind_down s)) = BeaconExited.
Proof.
  intros Hj. destruct s as [w pc]. unfold wind_down. simpl in Hj.
  cbn [sys_beacon sys_world].
  destruct pc as [| |wake|].
  - cbn [run_schedule fold_left step sys_beacon sys_world beacon_resume].
    rewrite (beacon_test_joined w Hj). reflexivity.
  - cbn [run_schedule fold_left]. cbn [step sys_beacon sys_world].
    rewrite beacon_resume_in_send.
    cbn [step exec elapse sys_beacon sys_world snd].
    rewrite beacon_resume_asleep. cbn [clock].
    destruct (Z.leb_spec (clock w + 1) (clock w + Z.of_nat 1)); [|lia].
    rewrite beacon_test_joined by exact Hj. reflexivity.
  - cbn [run_schedule fold_left]. cbn [step exec elapse sys_beacon sys_world snd].
    rewrite beacon_resume_asleep. cbn [clock].
    destruct (Z.leb_spec wake (clock w + Z.of_nat (Z.to_nat (wake - clock w))));
      [|lia].
    rewrite beacon_test_joined by exact Hj. reflexivity.
  - reflexivity.
Qed.

(** X10.  Discovery ends the beaconing, wherever the beacon task is
    suspended when the frame is handled.  After one frame that decodes,
    from a sender the link layer does not know, and whether or not the
    sender could be registered: the flag is up; whatever the tasks do
    next, the only announcement made is the one of the [asend] call the
    beacon task was suspended in, if it was in one; at its next loop
    test the task returns; and it does get there: the pending send if
    any, the rest of its sleep, the test. *)
Theorem first_frame_ends_beaconing
    (s : system) (a : mac) (payload : string) (sch : list action) :
  utf8_check 0 payload = true ->
  a ∉ registered (mesh (self (sys_world s))) ->
  let s1 := step s (Frame a payload) in
  let s2 := run_schedule s1 sch in
  let s3 := run_schedule s1 (wind_down s1) in
  is_in_mesh (self (sys_world s1)) = true /\
  (exists evs,
     trace (sys_world s2) = trace (sys_world s) ++ evs /\
     (beacons evs + in_flight s2 = in_flight s)%nat) /\
  (beacon_due s2 -> sys_beacon (step s2 Beacon) = BeaconExited) /\
  sys_beacon s3 = BeaconExited /\
  (exists evs,
     trace (sys_world s3) = trace (sys_world s) ++ evs /\
     beacons evs = in_flight s).
Proof.
  intros Hok Hout. cbv zeta.
  destruct (receiver_body_unknown_effect a payload (sys_world s) Hok Hout)
    as (Hj & Hclk & evs & Htr & Hb).
  set (s1 := step s (Frame a payload)).
  assert (Hw1 : sys_world s1 = (receiver_body a payload (sys_world s)).2) by reflexivity.
  assert (Hfl : in_flight s1 = in_flight s) by reflexivity.
  assert (Hj1 : is_in_mesh (self (sys_world s1)) = true) by (rewrite Hw1; exact Hj).
  assert (Hfrom : forall sch',
            exists evs',
              trace (sys_world (run_schedule s1 sch')) = trace (sys_world s) ++ evs' /\
              (beacons evs' + in_flight (run_schedule s1 sch') = in_flight s)%nat).
  { intros sch'. destruct (joined_run_accounts sch' s1 Hj1) as (evs' & Htr' & Hb').
    exists (evs ++ evs'). split.
    - rewrite Htr', Hw1, Htr, <- app_assoc. reflexivity.
    - rewrite beacons_app, Hb, <- Hfl. exact Hb'. }
  split; [exact Hj1|]. split; [apply Hfrom|].
  split.
  { intros Hdue. apply beacon_exits_when_joined; [exact Hdue|].
    apply joined_run_schedule, Hj1. }
  pose proof (wind_down_exits s1 Hj1) as Hexit.
  split; [exact Hexit|].
  destruct (Hfrom (wind_down s1)) as (evs' & Htr' & Hb').
  exists evs'. split; [exact Htr'|].
  unfold in_flight in Hb' at 1. rewrite Hexit in Hb'. lia.
Qed.

Lemma first_frame_ends_beaconing_witness :
  let s := step (started 20 dead_air) Beacon in
  let s1 := step s (Frame node_A "--hello--") in
  let s2 := run_schedule s1 [Notify; Beacon] in
  let s3 := run_schedule s1 (wind_down s1) in
  is_in_mesh (self (sys_world s1)) = true /\
  (exists evs,
     trace (sys_world s2) = trace (sys_world s) ++ evs /\
     (beacons evs + in_flight s2 = in_flight s)%nat) /\
  (beacon_due s2 -> sys_beacon (step s2 Beacon) = BeaconExited) /\
  sys_beacon s3 = BeaconExited /\
  (exists evs,
     trace (sys_world s3) = trace (sys_world s) ++ evs /\
     beacons evs = in_flight s).
Proof.
  cbv zeta.
  apply (first_frame_ends_beaconing
           (step (started 20 dead_air) Beacon) node_A "--hello--" [Notify; Beacon]).
  - reflexivity.
  - vm_compute. intros H. apply list_elem_of_singleton in H. discriminate.
Defined.

Lemma filter_shorter (a : mac) (l : list mac) :
  a ∈ l -> (length (filter (fun b => b ≠ a) l) < length l)%nat.
Proof.
  induction l as [|b l IH]; intros Hin; [apply elem_of_nil in Hin; contradiction|].
  destruct (decide (b = a)) as [->|Hne].
  - rewrite filter_cons_False by (intros H; apply H; reflexivity).
    simpl. pose proof (length_filter (fun b => b ≠ a) l). lia.
  - rewrite filter_cons_True by exact Hne. simpl.
    apply elem_of_cons in Hin as [Heq|Hin]; [congruence|].
    specialize (IH Hin). lia.
Qed.

(** X11.  Eviction and rediscovery.  [remove_peer] on a registered peer
    takes it off the link layer and leaves its entry in [peers] behind;
    the next frame from that address registers it again and replaces the
    entry by a fresh one, counter 0 and the time of the frame. *)
Theorem evicted_peer_is_rediscovered
    (a : mac) (payload : string) (w : world) (p : Peer) :
  utf8_check 0 payload = true ->
  a ∈ registered (mesh (self w)) ->
  peers (self w) !! a = Some p ->
  (length (registered (mesh (self w))) <= capacity (mesh (self w)))%nat ->
  let w1 := (remove_peer a w).2 in
  let w2 := (receiver_body a payload w1).2 in
  ((a ∉ registered (mesh (self w1))) /\ peers (self w1) !! a = Some p) /\
  (a ∈ registered (mesh (self w2)) /\
   peers (self w2) !! a = Some (mkPeer a 0 (clock w)) /\
   is_in_mesh (self w2) = true).
Proof.
  intros Hok Hin Hp Hcap. cbv zeta.
  rewrite (remove_peer_registered _ _ Hin).
  set (w1 := (_, _).2).
  assert (Hout1 : a ∉ registered (mesh (self w1))).
  { simpl. intros H. apply list_elem_of_filter in H as [Hne _]. congruence. }
  assert (Hroom1 : (length (registered (mesh (self w1))) < capacity (mesh (self w1)))%nat).
  { simpl. pose proof (filter_shorter a _ Hin). lia. }
  split; [split; [exact Hout1|exact Hp]|].
  rewrite (receiver_body_accepted _ _ _ Hok Hout1 Hroom1). simpl.
  split; [|split; [apply lookup_insert_eq|reflexivity]].
  apply elem_of_app. right. apply list_elem_of_singleton. reflexivity.
Qed.

Lemma evicted_peer_is_rediscovered_witness :
  let w := sys_world (paired_node dead_air) in
  let w1 := (remove_peer node_A w).2 in
  let w2 := (receiver_body node_A "--hello--" w1).2 in
  ((node_A ∉ registered (mesh (self w1))) /\
   peers (self w1) !! node_A = Some (mkPeer node_A 0 0)) /\
  (node_A ∈ registered (mesh (self w2)) /\
   peers (self w2) !! node_A = Some (mkPeer node_A 0 (clock w)) /\
   is_in_mesh (self w2) = true).
Proof.
  cbv zeta.
  apply (evicted_peer_is_rediscovered node_A "--hello--"
           (sys_world (paired_node dead_air)) (mkPeer node_A 0 0)).
  - reflexivity.
  - vm_compute. apply list_elem_of_In. right. left. reflexivity.
  - reflexivity.
  - vm_compute. lia.
Defined.

(** X12.  [start()] cannot be run twice on one [Mesh] object: on a node
    run by its tasks the broadcast address is registered, the link layer
    refuses it a second time, and the [OSError] leaves [start()] before
    any task is created, with peers and registrations as they were. *)
Theorem start_twice_fails (cap : nat) (air : nat -> bool) (sch : list action) :
  (0 < cap)%nat ->
  forallb task_action sch = true ->
  let here := sys_world (run_schedule (started cap air) sch) in
  (start_radio here).1 = Raise (OSError ESP_ERR_ESPNOW_EXIST) /\
  peers (self (start_radio here).2) = peers (self here) /\
  registered (mesh (self (start_radio here).2)) = registered (mesh (self here)).
Proof.
  intros Hcap Hsch. cbv zeta.
  pose proof (guarded_run sch (started cap air) Hsch
                (started_broadcast_unknown cap air Hcap)) as [Hreg _].
  unfold start_radio, mesh_active, mesh_add_peer. coro_unfold. simpl.
  rewrite bool_decide_eq_true_2 by exact Hreg. simpl. auto.
Qed.

Lemma start_twice_fails_witness :
  let here := sys_world (run_schedule (started 20 dead_air)
                           [Beacon; Frame node_A "--hello--"]) in
  (start_radio here).1 = Raise (OSError ESP_ERR_ESPNOW_EXIST) /\
  peers (self (start_radio here).2) = peers (self here) /\
  registered (mesh (self (start_radio here).2)) = registered (mesh (self here)).
Proof.
  apply (start_twice_fails 20 dead_air [Beacon; Frame node_A "--hello--"]);
    [lia|reflexivity].
Defined.

(** ** Counting the attempts and the time of a call *)

Lemma send_message_loop_exhausts k : forall n m a w p,
  peers (self w) !! a = Some p ->
  failure_count p = 4 - Z.of_nat k ->
  (forall i, (i <= k)%nat -> radio w (sent w + i)%nat = false) ->
  exists w',
    send_message_loop (S k + n) m a w = (Done tt, w') /\
    sent w' = (sent w + S k)%nat /\
    clock w' = clock w + Z.of_nat k /\
    peers (self w') !! a = Some (with_failure_count p 5) /\
    a ∉ registered (mesh (self w')).
Proof.
  induction k as [|k IH]; intros n m a w p Hp Hfc Hfail.
  - assert (Hfirst : radio w (sent w) = false).
    { rewrite <- (Nat.add_0_r (sent w)). apply Hfail. lia. }
    change (1 + n)%nat with (S n).
    rewrite (loop_evict _ _ _ _ _ Hp Hfirst) by lia.
    destruct (remove_peer_facts a (threshold_world a m p w))
      as (w' & e & Hrun & Hpeers & _ & Hreg & Hclk & _ & Hsent & _).
    exists w'. split; [exact Hrun|]. simpl in *.
    split; [lia|]. split; [lia|]. split; [|exact Hreg].
    rewrite Hpeers, lookup_insert_eq, Hfc. reflexivity.
  - assert (Hfirst : radio w (sent w) = false).
    { rewrite <- (Nat.add_0_r (sent w)). apply Hfail. lia. }
    change (S (S k) + n)%nat with (S (S k + n)).
    rewrite (loop_retry _ _ _ _ _ Hp Hfirst) by lia.
    destruct (IH n m a (retry_world a m p w)
                 (with_failure_count p (failure_count p + 1)))
      as (w' & Hrun & Hsent & Hclk & Hcnt & Hreg).
    { simpl. apply lookup_insert_eq. }
    { simpl. lia. }
    { intros i Hi. simpl. rewrite <- Nat.add_succ_r. apply Hfail. lia. }
    exists w'. split; [exact Hrun|]. simpl in *.
    split; [lia|]. split; [lia|]. split; [exact Hcnt|exact Hreg].
Qed.

(** X13.  The threshold is counted from the entry's counter: a peer whose
    counter stands at [c], [0 <= c < 5], is handed to [remove_peer] after
    exactly [5 - c] unanswered sends in one call.  The call has then
    slept [4 - c] time units, the peer is off the link layer, and its
    entry stays in [peers] with the counter at 5. *)
Theorem unanswered_sends_reach_threshold
    (m : string) (a : mac) (w : world) (p : Peer) :
  peers (self w) !! a = Some p ->
  0 <= failure_count p < 5 ->
  (forall i, (i < Z.to_nat (5 - failure_count p))%nat ->
             radio w (sent w + i)%nat = false) ->
  exists w',
    send_message m a w = (Done tt, w') /\
    sent w' = (sent w + Z.to_nat (5 - failure_count p))%nat /\
    clock w' = clock w + (4 - failure_count p) /\
    peers (self w') !! a = Some (with_failure_count p 5) /\
    a ∉ registered (mesh (self w')).
Proof.
  intros Hp Hc Hfail. unfold send_message, send_message_bound. rewrite Hp.
  destruct (send_message_loop_exhausts (Z.to_nat (4 - failure_count p)) 0 m a w p Hp)
    as (w' & Hrun & Hsent & Hclk & Hcnt & Hreg).
  { lia. }
  { intros i Hi. apply Hfail. lia. }
  exists w'. rewrite Nat.add_0_r in Hrun.
  split; [exact Hrun|]. split; [lia|]. split; [lia|]. split; [exact Hcnt|exact Hreg].
Qed.

Lemma unanswered_sends_reach_threshold_witness :
  exists w',
    send_message "Hi" node_A (sys_world (paired_node dead_air)) = (Done tt, w') /\
    sent w' = (sent (sys_world (paired_node dead_air)) + Z.to_nat (5 - 0))%nat /\
    clock w' = clock (sys_world (paired_node dead_air)) + (4 - 0) /\
    peers (self w') !! node_A = Some (with_failure_count (mkPeer node_A 0 0) 5) /\
    node_A ∉ registered (mesh (self w')).
Proof.
  apply (unanswered_sends_reach_threshold "Hi" node_A
           (sys_world (paired_node dead_air)) (mkPeer node_A 0 0)).
  - reflexivity.
  - simpl. lia.
  - intros i Hi. reflexivity.
Defined.

Lemma send_message_loop_duration n : forall m a w p,
  peers (self w) !! a = Some p ->
  (Z.to_nat (4 - failure_count p) < n)%nat ->
  let w' := (send_message_loop n m a w).2 in
  (sent w < sent w')%nat /\
  clock w' + 1 = clock w + Z.of_nat (sent w' - sent w).
Proof.
  induction n as [|n IH]; intros m a w p Hp Hfuel; [lia|]. cbv zeta.
  destruct (radio w (sent w)) eqn:Hok.
  - rewrite (loop_success _ _ _ _ _ Hp Hok). simpl. lia.
  - destruct (Z_lt_ge_dec (failure_count p + 1) 5) as [Hlt|Hge].
    + rewrite (loop_retry _ _ _ _ _ Hp Hok Hlt).
      destruct (IH m a (retry_world a m p w)
                   (with_failure_count p (failure_count p + 1)))
        as (Hlt' & Hclk).
      { simpl. apply lookup_insert_eq. }
      { simpl. lia. }
      simpl in *. lia.
    + rewrite (loop_evict _ _ _ _ _ Hp Hok) by lia.
      destruct (remove_peer_facts a (threshold_world a m p w))
        as (w' & e & Hrun & _ & _ & _ & Hclk & _ & Hsent & _).
      rewrite Hrun. simpl in *. lia.
Qed.

(** X14.  A call of [send_message] for a peer in [peers] whose counter is
    not negative sleeps one time unit per retry and no more: with [k]
    sends, between 1 and 5, it takes [k - 1] time units, at most 4 and so
    less than the 5 units [notify_task] sleeps between two cycles. *)
Theorem send_message_takes_a_unit_per_retry
    (m : string) (a : mac) (w : world) (p : Peer) :
  peers (self w) !! a = Some p ->
  0 <= failure_count p ->
  let w' := (send_message m a w).2 in
  exists k : nat,
    sent w' = (sent w + k)%nat /\
    (1 <= k <= 5)%nat /\
    clock w' = clock w + Z.of_nat k - 1 /\
    clock w' - clock w < 5.
Proof.
  intros Hp Hc. cbv zeta. unfold send_message, send_message_bound. rewrite Hp.
  destruct (send_message_loop_spec (S (Z.to_nat (4 - failure_count p))) m a w p Hp)
    as (w' & evs & Hrun & _ & Hsent & Hlo & Hhi & _); [lia|].
  destruct (send_message_loop_duration (S (Z.to_nat (4 - failure_count p))) m a w p Hp)
    as (Hlt & Hclk); [lia|].
  rewrite Hrun in *. simpl in *.
  exists (attempts a evs). split; [exact Hsent|]. split; [lia|]. split; lia.
Qed.

Lemma send_message_takes_a_unit_per_retry_witness :
  let w := sys_world (paired_node third_time) in
  let w' := (send_message "Hi" node_A w).2 in
  exists k : nat,
    sent w' = (sent w + k)%nat /\
    (1 <= k <= 5)%nat /\
    clock w' = clock w + Z.of_nat k - 1 /\
    clock w' - clock w < 5.
Proof.
  cbv zeta.
  apply (send_message_takes_a_unit_per_retry "Hi" node_A
           (sys_world (paired_node third_time)) (mkPeer node_A 0 0));
    [reflexivity|simpl; lia].
Defined.

(** ** Adding and removing *)

Lemma filter_appended (a : mac) (l : list mac) :
  a ∉ l -> filter (fun b => b ≠ a) (l ++ [a]) = l.
Proof.
  intros Hout. rewrite filter_app, (filter_without _ _ Hout).
  rewrite filter_cons_False by (intros H; apply H; reflexivity).
  apply app_nil_r.
Qed.

(** X16.  [remove_peer] does not undo [add_peer].  After an address the
    link layer accepts has been added and removed again, the link-layer
    list is the one before, but [peers] keeps the entry that [add_peer]
    made. *)
Theorem remove_peer_does_not_undo_add_peer (a : mac) (w : world) :
  a ∉ registered (mesh (self w)) ->
  (length (registered (mesh (self w))) < capacity (mesh (self w)))%nat ->
  let w' := (remove_peer a (add_peer a w).2).2 in
  registered (mesh (self w')) = registered (mesh (self w)) /\
  peers (self w') = <[a := mkPeer a 0 (clock w)]> (peers (self w)) /\
  peers (self w') !! a = Some (mkPeer a 0 (clock w)).
Proof.
  intros Hout Hroom. cbv zeta. rewrite (add_peer_fresh _ _ Hout Hroom).
  set (w1 := (_, _).2).
  destruct (remove_peer_effect a w1) as (w' & Hrun & Hp & _ & Hr & _).
  rewrite Hrun. simpl. rewrite Hp, Hr. subst w1. simpl.
  split; [apply filter_appended, Hout|]. split; [reflexivity|].
  apply lookup_insert_eq.
Qed.

Lemma remove_peer_does_not_undo_add_peer_witness :
  let w := sys_world (started 20 dead_air) in
  let w' := (remove_peer node_A (add_peer node_A w).2).2 in
  registered (mesh (self w')) = registered (mesh (self w)) /\
  peers (self w') = <[node_A := mkPeer node_A 0 (clock w)]> (peers (self w)) /\
  peers (self w') !! node_A = Some (mkPeer node_A 0 (clock w)).
Proof.
  cbv zeta.
  apply (remove_peer_does_not_undo_add_peer node_A (sys_world (started 20 dead_air))).
  - vm_compute. intros H. apply list_elem_of_singleton in H. discriminate.
  - vm_compute. lia.
Defined.

(** X17.  [receiver_task] never transmits and never sleeps: whatever the
    frame, handling it uses up none of the radio's answers and leaves the
    clock where it was. *)
Theorem receiver_body_never_transmits (a : mac) (payload : string) (w : world) :
  let w' := (receiver_body a payload w).2 in
  sent w' = sent w /\ clock w' = clock w.
Proof.
  cbv zeta. destruct (utf8_check 0 payload) eqn:Hok.
  - destruct (decide (a ∈ registered (mesh (self w)))) as [Hin|Hout].
    + rewrite (receiver_body_known _ _ _ Hok Hin). split; reflexivity.
    + destruct (le_lt_dec (capacity (mesh (self w)))
                          (length (registered (mesh (self w))))) as [Hfull|Hroom].
      * rewrite (receiver_body_refused _ _ _ Hok Hout Hfull). split; reflexivity.
      * rewrite (receiver_body_accepted _ _ _ Hok Hout Hroom). split; reflexivity.
  - rewrite (receiver_body_undecodable _ _ _ Hok). split; reflexivity.
Qed.
